(** * roc_netio: the libuv event loop (event_loop.cpp)

    A shallow embedding of [roc::netio::EventLoop].  Code that runs with
    [mutex_] held is embedded as a state transformer over a [World]: the
    loop object, the task objects living on the callers' stacks, the state
    of everything outside the class (libuv, the allocator, the ports, the
    resolver) and a trace of the externally visible actions.  The blocking
    parts ([task_cond_.wait()], [close_cond_.wait()]) are embedded as a step
    relation over program counters of the calling threads. *)

From stdpp Require Import base tactics option list.
From Stdlib Require Import Lia.

Set Default Proof Using "Type".

(** ** Data *)

(** A port object is identified by its address in memory. *)
Abbreviation BasicPort := nat (only parsing).
(** A task object is identified by its address on the caller's stack. *)
Abbreviation TaskId := nat (only parsing).
Abbreviation SocketAddr := nat (only parsing).
Abbreviation EndpointURI := nat (only parsing).

(** [packet::IWriter*]: either a writer object of the client or a sender
    port seen through its [IWriter] base ([sp.get()]). *)
Inductive IWriter :=
| ClientWriter (n : nat)
| SenderPortWriter (p : BasicPort).

Record UdpReceiverConfig := { rc_bind_address : SocketAddr }.
Record UdpSenderConfig := { sc_bind_address : SocketAddr }.

Record ResolverRequest := {
  endpoint_uri : EndpointURI;
  resolved_address : SocketAddr;
  success : bool
}.

Inductive TaskState := TaskPending | TaskSucceeded | TaskFailed.

Inductive TaskFunc :=
| F_add_udp_receiver
| F_add_udp_sender
| F_remove_port
| F_resolve_endpoint_address.

(** [EventLoop::Task].  The two config fields are pointers in the source;
    the record holds the object they point to, which is the caller's. *)
Record Task := {
  func : TaskFunc;
  state : TaskState;
  port : option BasicPort;
  port_writer : option IWriter;
  receiver_config : UdpReceiverConfig;
  sender_config : UdpSenderConfig;
  resolve_req : ResolverRequest
}.

Inductive Sem := StopSem | TaskSem.

Record EventLoop := {
  started_ : bool;
  loop_initialized_ : bool;
  stop_sem_initialized_ : bool;
  task_sem_initialized_ : bool;
  tasks_ : list TaskId;
  open_ports_ : list BasicPort;
  closing_ports_ : list BasicPort
}.

Inductive Event :=
| EvUvLoopInit
| EvUvAsyncInit (s : Sem)
| EvThreadStart
| EvThreadJoin
| EvUvAsyncSend (s : Sem)
| EvUvClose (s : Sem)
| EvUvRun
| EvUvLoopClose
| EvHandler (t : TaskId) (f : TaskFunc)
| EvTaskState (t : TaskId) (old new : TaskState)
| EvTaskCondBroadcast
| EvCloseCondBroadcast
| EvNewPort (p : option BasicPort)
| EvPortOpen (p : BasicPort) (ok : bool)
| EvPortAsyncClose (p : BasicPort) (async : bool)
| EvAsyncResolve (t : TaskId) (queued : bool).

Inductive PanicMsg :=
| InvalidLoop          (* "event loop: can't use invalid loop" *)
| NullHandle           (* "event loop: handle is null" *)
| UnknownPort          (* "event loop: can't remove port %s: unknown port" *)
| AsyncSendFailed      (* "event loop: uv_async_send(): ..." *)
| LoopCloseFailed      (* "event loop: uv_loop_close(): ..." *)
| DtorJoinable         (* roc_panic_if(joinable()) *)
| DtorOpenPorts        (* roc_panic_if(open_ports_.size()) *)
| DtorClosingPorts     (* roc_panic_if(closing_ports_.size()) *)
| DtorTaskSem          (* roc_panic_if(task_sem_initialized_) *)
| DtorStopSem          (* roc_panic_if(stop_sem_initialized_) *)
| NoPort               (* roc_panic_if(!task.port), or *task.port on null *)
| ListNotMember.       (* core::List::remove() of a non-member, if it checks *)

(** Why a computation did not return: the program aborted in [roc_panic],
    or the bound of a modelled [while] loop was used up. *)
Inductive Abort :=
| RocPanic (m : PanicMsg)
| OutOfFuel.

Global Instance TaskState_eq_dec : EqDecision TaskState.
Proof. solve_decision. Defined.
Global Instance TaskFunc_eq_dec : EqDecision TaskFunc.
Proof. solve_decision. Defined.
Global Instance Sem_eq_dec : EqDecision Sem.
Proof. solve_decision. Defined.
Global Instance IWriter_eq_dec : EqDecision IWriter.
Proof. solve_decision. Defined.
Global Instance Event_eq_dec : EqDecision Event.
Proof. solve_decision. Defined.

(** ** What the class uses and does not define

    libuv, [core::Thread], the allocator with the two port classes, the
    resolver and [core::List] are outside event_loop.cpp.  Their answers
    are parameters of the model: each is a function of the outside state
    [Env], which it may change. *)
Class Externals (Env : Type) := {
  uv_loop_init : Env → nat * Env;
  uv_async_init : Sem → Env → nat * Env;
  uv_async_send : Sem → Env → nat * Env;
  uv_close : Sem → Env → Env;
  uv_run : Env → nat * Env;
  uv_loop_close : Env → nat * Env;
  thread_start : Env → bool * Env;
  thread_joinable : Env → bool;
  (* new (allocator_) UdpReceiverPort(...): null when allocation fails *)
  new_receiver : UdpReceiverConfig → option IWriter → Env → option BasicPort * Env;
  new_sender : UdpSenderConfig → Env → option BasicPort * Env;
  port_open : BasicPort → Env → bool * Env;
  port_address : BasicPort → Env → SocketAddr;
  port_async_close : BasicPort → Env → bool * Env;
  (* Resolver::async_resolve: the request as the resolver leaves it, and
     whether it was queued *)
  async_resolve : ResolverRequest → Env → (bool * ResolverRequest) * Env;
  (* whether core::List::remove() panics on an element that is not in
     the list *)
  list_remove_checks : bool
}.

(** A small outside world to run the model on: every answer is read from a
    field, and ports get consecutive addresses. *)
Record Sim := {
  sim_next_port : nat;
  sim_alloc_ok : bool;
  sim_open_ok : bool;
  sim_close_async : bool;
  sim_loop_init_err : nat;
  sim_stop_init_err : nat;
  sim_task_init_err : nat;
  sim_thread_ok : bool;
  sim_resolve_queued : bool;
  sim_resolve_ok : bool
}.

Definition sim_new_port (e : Sim) : option BasicPort * Sim :=
  if sim_alloc_ok e then
    (Some (sim_next_port e),
     {| sim_next_port := S (sim_next_port e); sim_alloc_ok := sim_alloc_ok e;
        sim_open_ok := sim_open_ok e; sim_close_async := sim_close_async e;
        sim_loop_init_err := sim_loop_init_err e;
        sim_stop_init_err := sim_stop_init_err e;
        sim_task_init_err := sim_task_init_err e;
        sim_thread_ok := sim_thread_ok e;
        sim_resolve_queued := sim_resolve_queued e;
        sim_resolve_ok := sim_resolve_ok e |})
  else (None, e).

Definition sim_externals (checks : bool) : Externals Sim :=
  {| uv_loop_init e := (sim_loop_init_err e, e);
     uv_async_init s e :=
       (match s with
        | StopSem => sim_stop_init_err e
        | TaskSem => sim_task_init_err e
        end, e);
     uv_async_send _ e := (0, e);
     uv_close _ e := e;
     uv_run e := (0, e);
     uv_loop_close e := (0, e);
     thread_start e := (sim_thread_ok e, e);
     thread_joinable _ := false;
     new_receiver _ _ e := sim_new_port e;
     new_sender _ e := sim_new_port e;
     port_open _ e := (sim_open_ok e, e);
     port_address p _ := 5000 + p;
     port_async_close _ e := (sim_close_async e, e);
     async_resolve r e :=
       if sim_resolve_queued e then ((true, r), e)
       else ((false, {| endpoint_uri := endpoint_uri r;
                        resolved_address := 127;
                        success := sim_resolve_ok e |}), e);
     list_remove_checks := checks |}.

(** Everything works: allocation, [open()], and closing is asynchronous. *)
Definition sim_ok : Sim :=
  {| sim_next_port := 1; sim_alloc_ok := true; sim_open_ok := true;
     sim_close_async := true; sim_loop_init_err := 0; sim_stop_init_err := 0;
     sim_task_init_err := 0; sim_thread_ok := true;
     sim_resolve_queued := false; sim_resolve_ok := true |}.

(** [open()] fails before the port has a handle to close, so that
    [async_close()] has nothing to wait for. *)
Definition sim_open_fails_closed : Sim :=
  {| sim_next_port := 1; sim_alloc_ok := true; sim_open_ok := false;
     sim_close_async := false; sim_loop_init_err := 0; sim_stop_init_err := 0;
     sim_task_init_err := 0; sim_thread_ok := true;
     sim_resolve_queued := false; sim_resolve_ok := true |}.

(** [open()] fails and the port closes asynchronously. *)
Definition sim_open_fails : Sim :=
  {| sim_next_port := 1; sim_alloc_ok := true; sim_open_ok := false;
     sim_close_async := true; sim_loop_init_err := 0; sim_stop_init_err := 0;
     sim_task_init_err := 0; sim_thread_ok := true;
     sim_resolve_queued := false; sim_resolve_ok := true |}.

(** [uv_loop_init] fails. *)
Definition sim_no_loop : Sim :=
  {| sim_next_port := 1; sim_alloc_ok := true; sim_open_ok := true;
     sim_close_async := true; sim_loop_init_err := 1; sim_stop_init_err := 0;
     sim_task_init_err := 0; sim_thread_ok := true;
     sim_resolve_queued := false; sim_resolve_ok := true |}.

(** The thread does not start. *)
Definition sim_no_thread : Sim :=
  {| sim_next_port := 1; sim_alloc_ok := true; sim_open_ok := true;
     sim_close_async := true; sim_loop_init_err := 0; sim_stop_init_err := 0;
     sim_task_init_err := 0; sim_thread_ok := false;
     sim_resolve_queued := false; sim_resolve_ok := true |}.

(** The resolver queues the request. *)
Definition sim_resolve_later : Sim :=
  {| sim_next_port := 1; sim_alloc_ok := true; sim_open_ok := true;
     sim_close_async := true; sim_loop_init_err := 0; sim_stop_init_err := 0;
     sim_task_init_err := 0; sim_thread_ok := true;
     sim_resolve_queued := true; sim_resolve_ok := true |}.

Section Model.

Context {Env : Type} `{X : Externals Env}.

(** Modelled from the spec: the resolver is not part of event_loop.cpp.
    [resolving] is its queue: the tasks whose request [async_resolve]
    accepted for asynchronous completion and has not completed yet; each
    is completed once, through [handle_resolved]. *)
Record World := {
  loop : EventLoop;
  stack : TaskId → Task;
  resolving : list TaskId;
  env : Env;
  trace : list Event
}.

Inductive Res (A : Type) :=
| Ok (a : A) (w : World)
| Aborted (why : Abort) (w : World).
Global Arguments Ok {A} a w.
Global Arguments Aborted {A} why w.

(** State and abort monad of the code that runs under [mutex_]. *)
Definition M (A : Type) := World → Res A.

Definition ret {A} (a : A) : M A := λ w, Ok a w.
Definition bind {A B} (m : M A) (k : A → M B) : M B :=
  λ w, match m w with
       | Ok a w' => k a w'
       | Aborted why w' => Aborted why w'
       end.
Definition roc_panic {A} (m : PanicMsg) : M A := λ w, Aborted (RocPanic m) w.
Definition out_of_fuel {A} : M A := λ w, Aborted OutOfFuel w.

Notation "'do' x <- m ; k" := (bind m (λ x, k))
  (at level 10, x name, m at level 100, k at level 200,
   format "'[v' 'do'  x  <-  m ; '/' k ']'").
Notation "'do_' m ; k" := (bind m (λ _, k))
  (at level 10, m at level 100, k at level 200,
   format "'[v' 'do_'  m ; '/' k ']'").

Definition get_loop : M EventLoop := λ w, Ok (loop w) w.
Definition set_loop (l : EventLoop) : M unit :=
  λ w, Ok tt {| loop := l; stack := stack w; resolving := resolving w; env := env w; trace := trace w |}.
Definition emit (e : Event) : M unit :=
  λ w, Ok tt {| loop := loop w; stack := stack w; resolving := resolving w; env := env w;
                trace := trace w ++ [e] |}.
(** A call out of the class that returns a value. *)
Definition extern {A} (f : Env → A * Env) : M A :=
  λ w, let '(a, e) := f (env w) in
       Ok a {| loop := loop w; stack := stack w; resolving := resolving w; env := e; trace := trace w |}.
Definition extern_ (f : Env → Env) : M unit :=
  λ w, Ok tt {| loop := loop w; stack := stack w; resolving := resolving w; env := f (env w);
                trace := trace w |}.
Definition observe {A} (f : Env → A) : M A := λ w, Ok (f (env w)) w.

Definition get_task (t : TaskId) : M Task := λ w, Ok (stack w t) w.
Definition set_task (t : TaskId) (v : Task) : M unit :=
  λ w, Ok tt {| loop := loop w;
                stack := λ u, if decide (u = t) then v else stack w u;
                resolving := resolving w; env := env w; trace := trace w |}.

(** ** [core::List] *)

(** Modelled from the spec: [core::List] is declared in roc_core.  It is
    an intrusive list of pointers: an ordered sequence with a membership
    test, which the loop uses as a set (section 3).  [push_back] appends its
    argument.  That no object comes to occur twice in a list is therefore a
    matter of what event_loop.cpp passes to it, and is stated with the
    properties of the callers, not assumed here. *)
Definition list_front (l : list nat) : option nat := head l.
Definition list_push_back (l : list nat) (x : nat) : list nat := l ++ [x].
Definition list_contains (l : list nat) (x : nat) : bool := bool_decide (x ∈ l).
Definition list_erase (l : list nat) (x : nat) : list nat :=
  filter (λ y, y ≠ x) l.
(** [List::remove]: what it does to a list its argument is not in depends on
    [list_remove_checks]. *)
Definition list_remove (l : list nat) (x : nat) : M (list nat) :=
  if list_contains l x then ret (list_erase l x)
  else if list_remove_checks then roc_panic ListNotMember
  else ret l.

Definition set_tasks (q : list TaskId) (l : EventLoop) : EventLoop :=
  {| started_ := started_ l; loop_initialized_ := loop_initialized_ l;
     stop_sem_initialized_ := stop_sem_initialized_ l;
     task_sem_initialized_ := task_sem_initialized_ l;
     tasks_ := q; open_ports_ := open_ports_ l;
     closing_ports_ := closing_ports_ l |}.
Definition set_open_ports (q : list BasicPort) (l : EventLoop) : EventLoop :=
  {| started_ := started_ l; loop_initialized_ := loop_initialized_ l;
     stop_sem_initialized_ := stop_sem_initialized_ l;
     task_sem_initialized_ := task_sem_initialized_ l;
     tasks_ := tasks_ l; open_ports_ := q;
     closing_ports_ := closing_ports_ l |}.
Definition set_closing_ports (q : list BasicPort) (l : EventLoop) : EventLoop :=
  {| started_ := started_ l; loop_initialized_ := loop_initialized_ l;
     stop_sem_initialized_ := stop_sem_initialized_ l;
     task_sem_initialized_ := task_sem_initialized_ l;
     tasks_ := tasks_ l; open_ports_ := open_ports_ l;
     closing_ports_ := q |}.
Definition set_sem_initialized (s : Sem) (b : bool) (l : EventLoop) : EventLoop :=
  {| started_ := started_ l; loop_initialized_ := loop_initialized_ l;
     stop_sem_initialized_ :=
       match s with StopSem => b | TaskSem => stop_sem_initialized_ l end;
     task_sem_initialized_ :=
       match s with TaskSem => b | StopSem => task_sem_initialized_ l end;
     tasks_ := tasks_ l; open_ports_ := open_ports_ l;
     closing_ports_ := closing_ports_ l |}.

Definition set_state (s : TaskState) (t : Task) : Task :=
  {| func := func t; state := s; port := port t;
     port_writer := port_writer t; receiver_config := receiver_config t;
     sender_config := sender_config t; resolve_req := resolve_req t |}.
Definition set_port (p : option BasicPort) (t : Task) : Task :=
  {| func := func t; state := state t; port := p;
     port_writer := port_writer t; receiver_config := receiver_config t;
     sender_config := sender_config t; resolve_req := resolve_req t |}.
Definition set_port_writer (v : option IWriter) (t : Task) : Task :=
  {| func := func t; state := state t; port := port t;
     port_writer := v; receiver_config := receiver_config t;
     sender_config := sender_config t; resolve_req := resolve_req t |}.
Definition set_receiver_config (c : UdpReceiverConfig) (t : Task) : Task :=
  {| func := func t; state := state t; port := port t;
     port_writer := port_writer t; receiver_config := c;
     sender_config := sender_config t; resolve_req := resolve_req t |}.
Definition set_sender_config (c : UdpSenderConfig) (t : Task) : Task :=
  {| func := func t; state := state t; port := port t;
     port_writer := port_writer t; receiver_config := receiver_config t;
     sender_config := c; resolve_req := resolve_req t |}.
Definition set_resolve_req (r : ResolverRequest) (t : Task) : Task :=
  {| func := func t; state := state t; port := port t;
     port_writer := port_writer t; receiver_config := receiver_config t;
     sender_config := sender_config t; resolve_req := r |}.

Definition modify_resolving (f : list TaskId → list TaskId) : M unit :=
  λ w, Ok tt {| loop := loop w; stack := stack w; resolving := f (resolving w);
                env := env w; trace := trace w |}.
Definition modify_task (t : TaskId) (f : Task → Task) : M unit :=
  do v <- get_task t; set_task t (f v).
Definition modify_loop (f : EventLoop → EventLoop) : M unit :=
  do l <- get_loop; set_loop (f l).

(** ** The loop thread *)

(** [EventLoop::async_close_port_] *)
Definition async_close_port_ (p : BasicPort) : M unit :=
  do async <- extern (port_async_close p);
  do_ emit (EvPortAsyncClose p async);
  if negb async then ret tt
  else modify_loop (λ l, set_closing_ports (list_push_back (closing_ports_ l) p) l).

(** [EventLoop::add_udp_receiver_] *)
Definition add_udp_receiver_ (t : TaskId) : M TaskState :=
  do task <- get_task t;
  do rp <- extern (new_receiver (receiver_config task) (port_writer task));
  do_ emit (EvNewPort rp);
  match rp with
  | None => ret TaskFailed
  | Some rp =>
    do_ modify_task t (set_port (Some rp));
    do ok <- extern (port_open rp);
    do_ emit (EvPortOpen rp ok);
    if negb ok then
      do_ async_close_port_ rp;
      ret TaskFailed
    else
      do a <- observe (port_address rp);
      do_ modify_task t (set_receiver_config {| rc_bind_address := a |});
      do_ modify_loop (λ l, set_open_ports (list_push_back (open_ports_ l) rp) l);
      ret TaskSucceeded
  end.

(** [EventLoop::add_udp_sender_] *)
Definition add_udp_sender_ (t : TaskId) : M TaskState :=
  do task <- get_task t;
  do sp <- extern (new_sender (sender_config task));
  do_ emit (EvNewPort sp);
  match sp with
  | None => ret TaskFailed
  | Some sp =>
    do_ modify_task t (set_port (Some sp));
    do ok <- extern (port_open sp);
    do_ emit (EvPortOpen sp ok);
    if negb ok then
      do_ async_close_port_ sp;
      ret TaskFailed
    else
      do_ modify_task t (set_port_writer (Some (SenderPortWriter sp)));
      do a <- observe (port_address sp);
      do_ modify_task t (set_sender_config {| sc_bind_address := a |});
      do_ modify_loop (λ l, set_open_ports (list_push_back (open_ports_ l) sp) l);
      ret TaskSucceeded
  end.

(** [EventLoop::remove_port_] *)
Definition remove_port_ (t : TaskId) : M TaskState :=
  do task <- get_task t;
  match port task with
  | None => roc_panic NoPort
  | Some p =>
    do l <- get_loop;
    do q <- list_remove (open_ports_ l) p;
    do_ modify_loop (set_open_ports q);
    do_ async_close_port_ p;
    ret TaskSucceeded
  end.

(** [EventLoop::resolve_endpoint_address_] *)
Definition resolve_endpoint_address_ (t : TaskId) : M TaskState :=
  do task <- get_task t;
  do r <- extern (async_resolve (resolve_req task));
  do_ emit (EvAsyncResolve t (fst r));
  do_ modify_task t (set_resolve_req (snd r));
  if negb (fst r) then
    ret (if success (snd r) then TaskSucceeded else TaskFailed)
  else
    do_ modify_resolving (λ q, q ++ [t]);
    ret TaskPending.

(** [this->*(task->func)] *)
Definition call_func (f : TaskFunc) : TaskId → M TaskState :=
  match f with
  | F_add_udp_receiver => add_udp_receiver_
  | F_add_udp_sender => add_udp_sender_
  | F_remove_port => remove_port_
  | F_resolve_endpoint_address => resolve_endpoint_address_
  end.

(** [task->state = ...] *)
Definition assign_state (t : TaskId) (s : TaskState) : M unit :=
  do task <- get_task t;
  do_ emit (EvTaskState t (state task) s);
  set_task t (set_state s task).

(** The [while] loop of [EventLoop::process_tasks_], with a bound [fuel] on
    the number of iterations. *)
Fixpoint process_tasks_loop (fuel : nat) (notify : bool) : M bool :=
  do l <- get_loop;
  match list_front (tasks_ l) with
  | None => ret notify
  | Some t =>
    match fuel with
    | 0 => out_of_fuel
    | S fuel =>
      do q <- list_remove (tasks_ l) t;
      do_ modify_loop (set_tasks q);
      do task <- get_task t;
      do_ emit (EvHandler t (func task));
      do s <- call_func (func task) t;
      do_ assign_state t s;
      process_tasks_loop fuel (if decide (s ≠ TaskPending) then true else notify)
    end
  end.

(** [EventLoop::process_tasks_] *)
Definition process_tasks_ : M unit :=
  do l <- get_loop;
  do notify <- process_tasks_loop (length (tasks_ l)) false;
  if notify then emit EvTaskCondBroadcast else ret tt.

(** [EventLoop::task_sem_cb_] *)
Definition task_sem_cb_ : M unit := process_tasks_.

(** The [while] loop of [EventLoop::async_close_ports_], with a bound on
    the number of iterations. *)
Fixpoint async_close_ports_loop (fuel : nat) : M unit :=
  do l <- get_loop;
  match list_front (open_ports_ l) with
  | None => ret tt
  | Some p =>
    match fuel with
    | 0 => out_of_fuel
    | S fuel =>
      do q <- list_remove (open_ports_ l) p;
      do_ modify_loop (set_open_ports q);
      do_ async_close_port_ p;
      async_close_ports_loop fuel
    end
  end.

(** [EventLoop::async_close_ports_] *)
Definition async_close_ports_ : M unit :=
  do l <- get_loop;
  async_close_ports_loop (length (open_ports_ l)).

(** [EventLoop::close_sems_] *)
Definition close_sems_ : M unit :=
  do l <- get_loop;
  do_ (if task_sem_initialized_ l then
         do_ extern_ (uv_close TaskSem);
         do_ emit (EvUvClose TaskSem);
         modify_loop (set_sem_initialized TaskSem false)
       else ret tt);
  do l <- get_loop;
  if stop_sem_initialized_ l then
    do_ extern_ (uv_close StopSem);
    do_ emit (EvUvClose StopSem);
    modify_loop (set_sem_initialized StopSem false)
  else ret tt.

(** [EventLoop::stop_sem_cb_] *)
Definition stop_sem_cb_ : M unit :=
  do_ async_close_ports_;
  do_ close_sems_;
  process_tasks_.

(** [EventLoop::handle_closed] *)
Definition handle_closed (p : BasicPort) : M unit :=
  do l <- get_loop;
  if negb (list_contains (closing_ports_ l) p) then ret tt
  else
    do q <- list_remove (closing_ports_ l) p;
    do_ modify_loop (set_closing_ports q);
    emit EvCloseCondBroadcast.

(** [EventLoop::handle_resolved]; the task is the one that embeds the
    request ([ROC_CONTAINER_OF]). *)
Definition handle_resolved (t : TaskId) : M unit :=
  do task <- get_task t;
  do_ assign_state t (if success (resolve_req task) then TaskSucceeded
                      else TaskFailed);
  emit EvTaskCondBroadcast.

(** [EventLoop::run] *)
Definition run : M unit :=
  do err <- extern uv_run;
  emit EvUvRun.

(** [EventLoop::valid] *)
Definition valid (l : EventLoop) : bool := started_ l.

(** [EventLoop::num_ports] *)
Definition num_ports (l : EventLoop) : nat := length (open_ports_ l).

(** The member initializers of the constructor. *)
Definition fresh_loop : EventLoop :=
  {| started_ := false; loop_initialized_ := false;
     stop_sem_initialized_ := false; task_sem_initialized_ := false;
     tasks_ := []; open_ports_ := []; closing_ports_ := [] |}.

Definition set_loop_initialized (b : bool) (l : EventLoop) : EventLoop :=
  {| started_ := started_ l; loop_initialized_ := b;
     stop_sem_initialized_ := stop_sem_initialized_ l;
     task_sem_initialized_ := task_sem_initialized_ l;
     tasks_ := tasks_ l; open_ports_ := open_ports_ l;
     closing_ports_ := closing_ports_ l |}.
Definition set_started (b : bool) (l : EventLoop) : EventLoop :=
  {| started_ := b; loop_initialized_ := loop_initialized_ l;
     stop_sem_initialized_ := stop_sem_initialized_ l;
     task_sem_initialized_ := task_sem_initialized_ l;
     tasks_ := tasks_ l; open_ports_ := open_ports_ l;
     closing_ports_ := closing_ports_ l |}.

(** [EventLoop::EventLoop] *)
Definition EventLoop_ctor : M unit :=
  do_ set_loop fresh_loop;
  do err <- extern uv_loop_init;
  do_ emit EvUvLoopInit;
  if decide (err ≠ 0) then ret tt
  else
    do_ modify_loop (set_loop_initialized true);
    do err <- extern (uv_async_init StopSem);
    do_ emit (EvUvAsyncInit StopSem);
    if decide (err ≠ 0) then ret tt
    else
      do_ modify_loop (set_sem_initialized StopSem true);
      do err <- extern (uv_async_init TaskSem);
      do_ emit (EvUvAsyncInit TaskSem);
      if decide (err ≠ 0) then ret tt
      else
        do_ modify_loop (set_sem_initialized TaskSem true);
        do ok <- extern thread_start;
        do_ emit EvThreadStart;
        modify_loop (set_started ok).

(** Modelled from the spec: what [Thread::join] waits for is the loop
    thread, whose reactor delivers the stop wakeup and then the completion
    of each asynchronous close that is under way, and returns when no
    handle is active (sections 4.5 and 6). *)
Fixpoint finish_closing (fuel : nat) : M unit :=
  do l <- get_loop;
  match list_front (closing_ports_ l) with
  | None => ret tt
  | Some p =>
    match fuel with
    | 0 => out_of_fuel
    | S fuel => do_ handle_closed p; finish_closing fuel
    end
  end.

Definition thread_join : M unit :=
  do_ stop_sem_cb_;
  do l <- get_loop;
  do_ finish_closing (length (closing_ports_ l));
  emit EvThreadJoin.

Definition roc_panic_if (b : bool) (m : PanicMsg) : M unit :=
  if b then roc_panic m else ret tt.

(** [EventLoop::~EventLoop] *)
Definition EventLoop_dtor : M unit :=
  do l <- get_loop;
  do_ (if started_ l then
         do err <- extern (uv_async_send StopSem);
         do_ emit (EvUvAsyncSend StopSem);
         roc_panic_if (bool_decide (err ≠ 0)) AsyncSendFailed
       else close_sems_);
  do l <- get_loop;
  do_ (if loop_initialized_ l then
         do_ (if started_ l then thread_join else run);
         do err <- extern uv_loop_close;
         do_ emit EvUvLoopClose;
         roc_panic_if (bool_decide (err ≠ 0)) LoopCloseFailed
       else ret tt);
  do joinable <- observe thread_joinable;
  do_ roc_panic_if joinable DtorJoinable;
  do l <- get_loop;
  do_ roc_panic_if (bool_decide (length (open_ports_ l) ≠ 0)) DtorOpenPorts;
  do_ roc_panic_if (bool_decide (length (closing_ports_ l) ≠ 0)) DtorClosingPorts;
  do_ roc_panic_if (task_sem_initialized_ l) DtorTaskSem;
  roc_panic_if (stop_sem_initialized_ l) DtorStopSem.

(** ** The calling threads *)

(** A call of the public interface with its arguments.  [writer] of
    [add_udp_sender] is a pointer to a client variable of type [IWriter*]:
    [None] is the null pointer, [Some v] points to a variable that holds
    [v]. *)
Inductive Call :=
| AddUdpReceiver (config : UdpReceiverConfig) (writer : IWriter)
| AddUdpSender (config : UdpSenderConfig) (writer : option (option IWriter))
| RemovePort (handle : option BasicPort)
| ResolveEndpointAddress (uri : EndpointURI) (resolved : SocketAddr).

Inductive RetVal :=
| RetHandle (h : option BasicPort)   (* PortHandle, [None] is NULL *)
| RetVoid
| RetBool (b : bool).

(** Where a calling thread is: parked on [task_cond_] in [run_task_],
    parked on [close_cond_] in [wait_port_closed_] (with the value to
    return afterwards), or back in the client. *)
Inductive Pc :=
| InRunTask
| InWaitClosed (p : BasicPort) (r : RetVal)
| Returned (r : RetVal).

Record Thread := {
  call : Call;
  pc : Pc;
  (* the variable [writer] points to, for add_udp_sender *)
  writer_out : option (option IWriter)
}.

Definition set_pc (c : Pc) (th : Thread) : Thread :=
  {| call := call th; pc := c; writer_out := writer_out th |}.
Definition set_writer_out (v : option (option IWriter)) (th : Thread) : Thread :=
  {| call := call th; pc := pc th; writer_out := v |}.

(** Modelled from the spec: [Task::Task()] is declared in event_loop.h;
    a new task is pending and holds no port and no writer (section 3). *)
Definition blank_task (f : TaskFunc) : Task :=
  {| func := f; state := TaskPending; port := None; port_writer := None;
     receiver_config := {| rc_bind_address := 0 |};
     sender_config := {| sc_bind_address := 0 |};
     resolve_req := {| endpoint_uri := 0; resolved_address := 0;
                       success := false |} |}.

Definition task_of_call (c : Call) : Task :=
  match c with
  | AddUdpReceiver config writer =>
      set_receiver_config config
        (set_port_writer (Some writer) (blank_task F_add_udp_receiver))
  | AddUdpSender config _ =>
      set_sender_config config (blank_task F_add_udp_sender)
  | RemovePort handle => set_port handle (blank_task F_remove_port)
  | ResolveEndpointAddress uri resolved =>
      set_resolve_req {| endpoint_uri := uri; resolved_address := resolved;
                         success := false |}
        (blank_task F_resolve_endpoint_address)
  end.

(** [EventLoop::wait_port_closed_]: one evaluation of the loop condition
    under the mutex; the thread goes on when the port is not in
    [closing_ports_] and parks on [close_cond_] otherwise. *)
Definition wait_port_closed_ (p : BasicPort) (r : RetVal) (th : Thread)
  : M Thread :=
  do l <- get_loop;
  if list_contains (closing_ports_ l) p then ret (set_pc (InWaitClosed p r) th)
  else ret (set_pc (Returned r) th).

(** What each public function does once [run_task_] has returned.  Up to
    the lock taken in [wait_port_closed_] this touches only the thread's
    own task, so the model runs it in one piece. *)
Definition after_run_task (t : TaskId) (th : Thread) : M Thread :=
  do task <- get_task t;
  match call th with
  | AddUdpReceiver _ _ =>
    if decide (state task = TaskFailed) then
      match port task with
      | Some p => wait_port_closed_ p (RetHandle None) th
      | None => ret (set_pc (Returned (RetHandle None)) th)
      end
    else
      do_ roc_panic_if (bool_decide (port task = None)) NoPort;
      ret (set_pc (Returned (RetHandle (port task))) th)
  | AddUdpSender _ writer =>
    if decide (state task = TaskFailed) then
      match port task with
      | Some p => wait_port_closed_ p (RetHandle None) th
      | None => ret (set_pc (Returned (RetHandle None)) th)
      end
    else
      let th := match writer_out th with
                | Some _ => set_writer_out (Some (port_writer task)) th
                | None => th
                end in
      do_ roc_panic_if (bool_decide (port task = None)) NoPort;
      ret (set_pc (Returned (RetHandle (port task))) th)
  | RemovePort _ =>
    do_ roc_panic_if (bool_decide (state task = TaskFailed)) UnknownPort;
    match port task with
    | Some p => wait_port_closed_ p RetVoid th
    | None => roc_panic NoPort
    end
  | ResolveEndpointAddress _ _ =>
    ret (set_pc (Returned (RetBool (bool_decide (state task = TaskSucceeded)))) th)
  end.

(** The [while] loop of [EventLoop::run_task_]: one evaluation of its
    condition under the mutex. *)
Definition run_task_wait (t : TaskId) (th : Thread) : M Thread :=
  do task <- get_task t;
  if decide (state task = TaskPending) then ret (set_pc InRunTask th)
  else after_run_task t th.

(** [EventLoop::run_task_] up to its first wait. *)
Definition run_task_ (t : TaskId) (th : Thread) : M Thread :=
  do_ modify_loop (λ l, set_tasks (list_push_back (tasks_ l) t) l);
  do err <- extern (uv_async_send TaskSem);
  do_ emit (EvUvAsyncSend TaskSem);
  do_ roc_panic_if (bool_decide (err ≠ 0)) AsyncSendFailed;
  run_task_wait t th.

(** Entry of [add_udp_receiver], [add_udp_sender], [remove_port] and
    [resolve_endpoint_address]: the checks, the task (at address [t] of the
    caller's stack) and [run_task_]. *)
Definition enter (t : TaskId) (c : Call) : M Thread :=
  do l <- get_loop;
  do_ roc_panic_if (negb (valid l)) InvalidLoop;
  do_ (match c with
       | RemovePort None => roc_panic NullHandle
       | _ => ret tt
       end);
  do_ set_task t (task_of_call c);
  run_task_ t {| call := c; pc := InRunTask;
                 writer_out := match c with
                               | AddUdpSender _ w => w
                               | _ => None
                               end |}.

(** A parked thread is woken up (by a broadcast, or spuriously) and
    evaluates the condition of its loop again. *)
Definition resume (t : TaskId) (th : Thread) : M Thread :=
  match pc th with
  | InRunTask => run_task_wait t th
  | InWaitClosed p r => wait_port_closed_ p r th
  | Returned _ => ret th
  end.

(** A call with no other thread in the way: the loop thread answers the
    task wakeup before the caller looks at its task again. *)
Definition call_alone (t : TaskId) (c : Call) : M Thread :=
  do th <- enter t c;
  do_ task_sem_cb_;
  resume t th.

(** ** The threads together *)

Record System := {
  world : World;
  threads : TaskId → option Thread
}.

Definition set_thread (t : TaskId) (th : Thread) (s : System) (w : World)
  : System :=
  {| world := w;
     threads := λ u, if decide (u = t) then Some th else threads s u |}.

(** The resolver stores the outcome in the request before it calls
    [handle_resolved]. *)
Definition resolver_completes (t : TaskId) (ok : bool) (a : SocketAddr)
  : M unit :=
  do task <- get_task t;
  do_ modify_task t (set_resolve_req
        {| endpoint_uri := endpoint_uri (resolve_req task);
           resolved_address := a; success := ok |});
  do_ modify_resolving (λ q, list_erase q t);
  handle_resolved t.

(** One critical section of one thread: a client thread enters a call or
    wakes up in one, or the reactor runs a callback on the loop thread (of
    a wakeup that is still open, of a port that finished closing, of the
    resolver).  A computation that aborts ends the process: there is no
    step. *)
Inductive step : System → System → Prop :=
| step_enter s t c th w :
    threads s t = None →
    enter t c (world s) = Ok th w →
    step s (set_thread t th s w)
| step_resume s t th th' w :
    threads s t = Some th →
    resume t th (world s) = Ok th' w →
    step s (set_thread t th' s w)
| step_task_sem s w :
    task_sem_initialized_ (loop (world s)) = true →
    task_sem_cb_ (world s) = Ok tt w →
    step s {| world := w; threads := threads s |}
| step_stop_sem s w :
    stop_sem_initialized_ (loop (world s)) = true →
    stop_sem_cb_ (world s) = Ok tt w →
    step s {| world := w; threads := threads s |}
| step_closed s p w :
    handle_closed p (world s) = Ok tt w →
    step s {| world := w; threads := threads s |}
| step_resolved s t ok a w :
    t ∈ resolving (world s) →
    resolver_completes t ok a (world s) = Ok tt w →
    step s {| world := w; threads := threads s |}.

Inductive steps : System → System → Prop :=
| steps_refl s : steps s s
| steps_step s1 s2 s3 : steps s1 s2 → step s2 s3 → steps s1 s3.

(** A loop on which no call was made yet. *)
Definition quiet (s : System) : Prop :=
  (∀ t, threads s t = None) ∧
  tasks_ (loop (world s)) = [] ∧
  resolving (world s) = [] ∧
  trace (world s) = [].

(** A world around a loop object, with nothing on the stacks yet. *)
Definition world_of (l : EventLoop) (e : Env) : World :=
  {| loop := l; stack := λ _, blank_task F_resolve_endpoint_address;
     resolving := []; env := e; trace := [] |}.

(** A loop whose constructor succeeded, with the given ports. *)
Definition running_loop (open closing : list BasicPort) : EventLoop :=
  {| started_ := true; loop_initialized_ := true;
     stop_sem_initialized_ := true; task_sem_initialized_ := true;
     tasks_ := []; open_ports_ := open; closing_ports_ := closing |}.

(** ** The vocabulary of the properties *)

(** Events that a handler produces itself. *)
Definition port_event (e : Event) : bool :=
  match e with
  | EvNewPort _ | EvPortOpen _ _ | EvPortAsyncClose _ _ | EvAsyncResolve _ _ =>
      true
  | _ => false
  end.

(** What no handler touches: the flags and the queue of the loop, the
    resolver's queue unless said otherwise, the other tasks, and [func] and
    [state] of its own task. *)
Record handler_frame (t : TaskId) (w w' : World) : Prop := {
  hf_tasks : tasks_ (loop w') = tasks_ (loop w);
  hf_started : started_ (loop w') = started_ (loop w);
  hf_loop_init : loop_initialized_ (loop w') = loop_initialized_ (loop w);
  hf_stop_sem : stop_sem_initialized_ (loop w') = stop_sem_initialized_ (loop w);
  hf_task_sem : task_sem_initialized_ (loop w') = task_sem_initialized_ (loop w);
  hf_others : ∀ u, u ≠ t → stack w' u = stack w u;
  hf_func : func (stack w' t) = func (stack w t);
  hf_state : state (stack w' t) = state (stack w t);
  hf_trace : ∃ evs, trace w' = trace w ++ evs ∧
                    Forall (λ e, port_event e = true) evs
}.

(** The world once [process_tasks_] has taken [t] off the queue, which
    leaves [q], and is about to call its handler. *)
Definition popped (w : World) (t : TaskId) (q : list TaskId) : World :=
  {| loop := set_tasks q (loop w); stack := stack w;
     resolving := resolving w; env := env w;
     trace := trace w ++ [EvHandler t (func (stack w t))] |}.

(** The world once the handler's result [s] is stored in the task. *)
Definition stored (w : World) (t : TaskId) (s : TaskState) : World :=
  {| loop := loop w;
     stack := λ u, if decide (u = t) then set_state s (stack w t)
                   else stack w u;
     resolving := resolving w; env := env w;
     trace := trace w ++ [EvTaskState t (state (stack w t)) s] |}.

(** The iterations of the loop of [process_tasks_], as a relation between
    the world and [notify] before and the outcome. *)
Inductive drain : bool → World → Res bool → Prop :=
| drain_empty notify w :
    tasks_ (loop w) = [] →
    drain notify w (Ok notify w)
| drain_panic notify w t q why w2 :
    tasks_ (loop w) = t :: q →
    call_func (func (stack w t)) t (popped w t q) = Aborted why w2 →
    drain notify w (Aborted why w2)
| drain_next notify w t q s w2 r :
    tasks_ (loop w) = t :: q →
    call_func (func (stack w t)) t (popped w t q) = Ok s w2 →
    drain (if decide (s ≠ TaskPending) then true else notify)
          (stored w2 t s) r →
    drain notify w r.

(** The trace without the events of the handlers themselves. *)
Definition task_view (evs : list Event) : list Event :=
  filter (λ e, port_event e = false) evs.

(** What the drain records for one task: its handler is called, then the
    result is stored. *)
Definition task_record (w w' : World) (t : TaskId) : list Event :=
  [EvHandler t (func (stack w t));
   EvTaskState t (state (stack w t)) (state (stack w' t))].

Definition still_pending (w : World) (t : TaskId) : Prop :=
  state (stack w t) = TaskPending.
Definition left_pending (w : World) (t : TaskId) : Prop :=
  state (stack w t) ≠ TaskPending.

Global Instance still_pending_dec w t : Decision (still_pending w t).
Proof. unfold still_pending. apply _. Defined.
Global Instance left_pending_dec w t : Decision (left_pending w t).
Proof. unfold left_pending. apply _. Defined.

(** The outcome of a drain that returns, in terms of the queue [q] it
    started with. *)
Record drained (q : list TaskId) (n : bool) (w : World) (n' : bool)
    (w' : World) : Prop := {
  dr_tasks : tasks_ (loop w') = [];
  dr_started : started_ (loop w') = started_ (loop w);
  dr_stop_sem : stop_sem_initialized_ (loop w') = stop_sem_initialized_ (loop w);
  dr_task_sem : task_sem_initialized_ (loop w') = task_sem_initialized_ (loop w);
  dr_others : ∀ u, u ∉ q → stack w' u = stack w u;
  dr_func : ∀ u, func (stack w' u) = func (stack w u);
  dr_trace : ∃ evs, trace w' = trace w ++ evs ∧
               task_view evs = flat_map (task_record w w') q;
  dr_notify : n' = n || bool_decide (Exists (left_pending w') q);
  dr_resolving : resolving w' = resolving w ++ filter (still_pending w') q;
  dr_resolve : ∀ u, u ∈ q → still_pending w' u →
               func (stack w u) = F_resolve_endpoint_address
}.

(** The tasks whose handler was called, in the order of the calls. *)
Definition handler_runs (evs : list Event) : list TaskId :=
  omap (λ e, match e with EvHandler t _ => Some t | _ => None end) evs.

(** The calls of [async_close()] on the given ports, with their answers. *)
Definition close_events (closes : list (BasicPort * bool)) : list Event :=
  map (λ pa, EvPortAsyncClose pa.1 pa.2) closes.
(** The ports among them whose close completes later. *)
Definition closing_of (closes : list (BasicPort * bool)) : list BasicPort :=
  (filter (λ pa, pa.2 = true) closes).*1.

(** What [async_close_ports_] leaves of the loop object. *)
Definition ports_closed (closes : list (BasicPort * bool)) (l : EventLoop)
  : EventLoop :=
  set_closing_ports (closing_ports_ l ++ closing_of closes)
    (set_open_ports [] l).

(** The world a computation ends in, returned or not. *)
Definition res_world {A} (r : Res A) : World :=
  match r with Ok _ w => w | Aborted _ w => w end.
(** What it returned, if it did, and why not, if it did not. *)
Definition res_value {A} (r : Res A) : option A :=
  match r with Ok a _ => Some a | Aborted _ _ => None end.
Definition res_abort {A} (r : Res A) : option Abort :=
  match r with Ok _ _ => None | Aborted why _ => Some why end.

(** The thread as [enter] parks it. *)
Definition parked (c : Call) : Thread :=
  {| call := c; pc := InRunTask;
     writer_out := match c with AddUdpSender _ w => w | _ => None end |}.

(** The world as [enter] leaves it when [uv_async_send] leaves [e]. *)
Definition entered (t : TaskId) (c : Call) (e : Env) (w : World) : World :=
  {| loop := set_tasks (tasks_ (loop w) ++ [t]) (loop w);
     stack := λ u, if decide (u = t) then task_of_call c else stack w u;
     resolving := resolving w; env := e;
     trace := trace w ++ [EvUvAsyncSend TaskSem] |}.

(** The world after a drain of a single task whose handler left [wh] and
    returned [s]. *)
Definition answered (wh : World) (t : TaskId) (s : TaskState) : World :=
  if decide (s ≠ TaskPending) then
    {| loop := loop wh;
       stack := λ u, if decide (u = t) then set_state s (stack wh t)
                     else stack wh u;
       resolving := resolving wh; env := env wh;
       trace := (trace wh ++ [EvTaskState t (state (stack wh t)) s]) ++
                [EvTaskCondBroadcast] |}
  else stored wh t s.

Definition is_add (c : Call) : Prop :=
  match c with
  | AddUdpReceiver _ _ | AddUdpSender _ _ => True
  | _ => False
  end.

(** The allocation an add call asks for: [new (allocator_)
    UdpReceiverPort(config, *writer, ...)] or [new (allocator_)
    UdpSenderPort(config, ...)]. *)
Definition allocate (c : Call) : Env → option BasicPort * Env :=
  match c with
  | AddUdpReceiver config writer => new_receiver config (Some writer)
  | AddUdpSender config _ => new_sender config
  | _ => λ e, (None, e)
  end.

(** [config.bind_address] of the call the task belongs to. *)
Definition bound_address (task : Task) : SocketAddr :=
  match func task with
  | F_add_udp_receiver => rc_bind_address (receiver_config task)
  | _ => sc_bind_address (sender_config task)
  end.

(** The config the caller passed, as the task holds it when the handler
    starts. *)
Definition config_address (c : Call) : SocketAddr :=
  match c with
  | AddUdpReceiver config _ => rc_bind_address config
  | AddUdpSender config _ => sc_bind_address config
  | _ => 0
  end.

(** An assignment to [state] of task [t] that changes it. *)
Definition state_change (t : TaskId) (e : Event) : Prop :=
  match e with
  | EvTaskState u old new => u = t ∧ old ≠ new
  | _ => False
  end.

Global Instance state_change_dec t e : Decision (state_change t e).
Proof. destruct e; simpl; apply _. Defined.

Definition transitions (t : TaskId) (tr : list Event) : list Event :=
  filter (state_change t) tr.

(** The task is done with: out of the queue and of the resolver, not
    pending, and its state changed once, from pending to what it is. *)
Definition completed (w : World) (t : TaskId) : Prop :=
  (t ∉ tasks_ (loop w)) ∧ (t ∉ resolving w) ∧
  state (stack w t) ≠ TaskPending ∧
  transitions t (trace w) = [EvTaskState t TaskPending (state (stack w t))].

(** The task is pending, untouched, and waits in the queue. *)
Definition queued (w : World) (t : TaskId) : Prop :=
  t ∈ tasks_ (loop w) ∧ (t ∉ resolving w) ∧
  state (stack w t) = TaskPending ∧ transitions t (trace w) = [].

(** The task is pending, untouched, and its request is with the
    resolver. *)
Definition in_resolver (w : World) (t : TaskId) : Prop :=
  (t ∉ tasks_ (loop w)) ∧ t ∈ resolving w ∧
  state (stack w t) = TaskPending ∧ transitions t (trace w) = [].

(** No task at this address was submitted yet. *)
Definition unused (w : World) (t : TaskId) : Prop :=
  (t ∉ tasks_ (loop w)) ∧ (t ∉ resolving w) ∧ transitions t (trace w) = [].

Definition thread_inv (w : World) (t : TaskId) (th : option Thread) : Prop :=
  match th with
  | None => unused w t
  | Some th =>
    match pc th with
    | InRunTask => queued w t ∨ in_resolver w t ∨ completed w t
    | _ => completed w t
    end
  end.

Record sys_inv (s : System) : Prop := {
  inv_queue : NoDup (tasks_ (loop (world s)));
  inv_threads : ∀ t, thread_inv (world s) t (threads s t)
}.

(** Two worlds that differ in nothing a task's invariant looks at. *)
Record task_equiv (w w' : World) : Prop := {
  te_tasks : tasks_ (loop w') = tasks_ (loop w);
  te_resolving : resolving w' = resolving w;
  te_stack : stack w' = stack w;
  te_trace : ∃ evs, trace w' = trace w ++ evs ∧ ∀ t, transitions t evs = []
}.

(** [open_ports_] and [closing_ports_] have no port in common. *)
Definition ports_disjoint (l : EventLoop) : Prop :=
  ∀ p, p ∈ open_ports_ l → p ∉ closing_ports_ l.

(** The allocator, asked now, hands out an object that is in neither list
    of ports. *)
Definition fresh_at (w : World) : Prop :=
  ∀ p e,
    ((∃ config writer, new_receiver config writer (env w) = (Some p, e)) ∨
     (∃ config, new_sender config (env w) = (Some p, e))) →
    (p ∉ open_ports_ (loop w)) ∧ (p ∉ closing_ports_ (loop w)).

(** ** Properties *)

(** *** The monad *)

Lemma bind_Ok {A B} (m : M A) (k : A → M B) w b w2 :
  bind m k w = Ok b w2 ↔ ∃ a w1, m w = Ok a w1 ∧ k a w1 = Ok b w2.
Proof.
  unfold bind. split.
  - destruct (m w) as [a w1|why w1]; [eauto|discriminate].
  - intros (a & w1 & -> & ?). done.
Qed.

Lemma bind_Aborted {A B} (m : M A) (k : A → M B) w why w2 :
  bind m k w = Aborted why w2 ↔
  m w = Aborted why w2 ∨ ∃ a w1, m w = Ok a w1 ∧ k a w1 = Aborted why w2.
Proof.
  unfold bind. split.
  - destruct (m w) as [a w1|why1 w1]; [eauto|].
    intros [= -> ->]. by left.
  - intros [->|(a & w1 & -> & ?)]; done.
Qed.

(** Takes apart a hypothesis that says a sequence of steps returned. *)
Ltac inv_ok :=
  repeat match goal with
  | H : bind _ _ _ = Ok _ _ |- _ =>
      apply bind_Ok in H; destruct H as (? & ? & ? & H)
  | H : ret _ _ = Ok _ _ |- _ => injection H as ? ?; subst
  | H : get_loop _ = Ok _ _ |- _ => injection H as ? ?; subst
  | H : get_task _ _ = Ok _ _ |- _ => injection H as ? ?; subst
  | H : observe _ _ = Ok _ _ |- _ => injection H as ? ?; subst
  | H : roc_panic _ _ = Ok _ _ |- _ => discriminate H
  | H : out_of_fuel _ = Ok _ _ |- _ => discriminate H
  end.

(** *** [core::List] *)

Lemma list_contains_true l x : list_contains l x = true ↔ x ∈ l.
Proof. unfold list_contains. apply bool_decide_eq_true. Qed.

Lemma list_contains_false l x : list_contains l x = false ↔ x ∉ l.
Proof. unfold list_contains. apply bool_decide_eq_false. Qed.

Lemma list_erase_not_in l x : x ∉ list_erase l x.
Proof. unfold list_erase. rewrite list_elem_of_filter. tauto. Qed.

Lemma list_erase_absent l x : x ∉ l → list_erase l x = l.
Proof.
  unfold list_erase. induction l as [|y l IH]; [done|].
  rewrite not_elem_of_cons. intros [? ?].
  rewrite filter_cons_True by congruence. by rewrite IH.
Qed.

Lemma list_erase_in l x y : y ∈ list_erase l x ↔ y ∈ l ∧ y ≠ x.
Proof. unfold list_erase. rewrite list_elem_of_filter. tauto. Qed.

Lemma list_erase_head x l : NoDup (x :: l) → list_erase (x :: l) x = l.
Proof.
  intros [Hx _]%NoDup_cons. unfold list_erase.
  rewrite filter_cons_False by tauto. by apply list_erase_absent.
Qed.

Lemma list_remove_member l x w :
  x ∈ l → list_remove l x w = Ok (list_erase l x) w.
Proof.
  intros Hin. unfold list_remove.
  by rewrite (proj2 (list_contains_true l x) Hin).
Qed.

Lemma list_remove_Ok l x q w w' :
  list_remove l x w = Ok q w' → w' = w ∧ q = list_erase l x.
Proof.
  unfold list_remove. destruct (list_contains l x) eqn:Hc.
  - by intros [= <- <-].
  - apply list_contains_false in Hc.
    destruct list_remove_checks; [discriminate|].
    intros [= <- <-]. by rewrite list_erase_absent.
Qed.

(** *** Closing a port *)

Lemma async_close_port_Ok p w :
  ∃ w', async_close_port_ p w = Ok tt w' ∧
    stack w' = stack w ∧ resolving w' = resolving w ∧
    env w' = snd (port_async_close p (env w)) ∧
    trace w' =
      trace w ++ [EvPortAsyncClose p (fst (port_async_close p (env w)))] ∧
    loop w' =
      (if fst (port_async_close p (env w))
       then set_closing_ports (closing_ports_ (loop w) ++ [p]) (loop w)
       else loop w).
Proof.
  unfold async_close_port_, bind, extern, emit, modify_loop, bind, get_loop,
    set_loop, ret, list_push_back.
  destruct (port_async_close p (env w)) as [[] e]; simpl; eauto 10.
Qed.

(** C6: [async_close_port_] always returns; when [async_close()] answers
    false the loop object is as before, when it answers true the port is
    appended to [closing_ports_].  A thread in [wait_port_closed_] stays
    parked while the port is in [closing_ports_] and goes on to return as
    soon as it finds it is not. *)
Theorem async_close_then_wait (p : BasicPort) (w : World) :
  (∃ w', async_close_port_ p w = Ok tt w' ∧
     stack w' = stack w ∧ resolving w' = resolving w ∧
     if fst (port_async_close p (env w))
     then closing_ports_ (loop w') = closing_ports_ (loop w) ++ [p] ∧
          p ∈ closing_ports_ (loop w') ∧
          open_ports_ (loop w') = open_ports_ (loop w) ∧
          tasks_ (loop w') = tasks_ (loop w)
     else loop w' = loop w) ∧
  (∀ t r th, pc th = InWaitClosed p r →
     ∃ th', resume t th w = Ok th' w ∧
       wait_port_closed_ p r th w = Ok th' w ∧
       (p ∈ closing_ports_ (loop w) ↔ th' = th) ∧
       (p ∉ closing_ports_ (loop w) ↔ pc th' = Returned r)).
Proof.
  split.
  - destruct (async_close_port_Ok p w) as (w' & -> & ? & ? & _ & _ & Hl).
    exists w'. repeat split; try done.
    destruct (fst (port_async_close p (env w))); [|done].
    rewrite Hl. simpl. repeat split; try done.
    apply elem_of_app. right. apply list_elem_of_singleton. done.
  - intros t r th Hpc. unfold resume. rewrite Hpc.
    unfold wait_port_closed_, bind, get_loop, ret.
    destruct (list_contains (closing_ports_ (loop w)) p) eqn:Hc.
    + apply list_contains_true in Hc.
      exists (set_pc (InWaitClosed p r) th).
      assert (set_pc (InWaitClosed p r) th = th) as Hsame.
      { destruct th. simpl in *. by subst. }
      split; [done|]. split; [done|]. split; [tauto|].
      split; [tauto|]. simpl. discriminate.
    + apply list_contains_false in Hc.
      exists (set_pc (Returned r) th).
      split; [done|]. split; [done|]. split; [|tauto].
      split; [tauto|].
      intros Heq. rewrite <- Heq in Hpc. simpl in Hpc. discriminate.
Qed.

(** *** [handle_closed] *)

Lemma handle_closed_absent p w :
  p ∉ closing_ports_ (loop w) → handle_closed p w = Ok tt w.
Proof.
  intros Hw. unfold handle_closed, bind, get_loop.
  by rewrite (proj2 (list_contains_false _ _) Hw).
Qed.

Lemma handle_closed_member p w :
  p ∈ closing_ports_ (loop w) →
  handle_closed p w =
    Ok tt {| loop := set_closing_ports
                       (list_erase (closing_ports_ (loop w)) p) (loop w);
             stack := stack w; resolving := resolving w; env := env w;
             trace := trace w ++ [EvCloseCondBroadcast] |}.
Proof.
  intros Hin. unfold handle_closed, bind, get_loop.
  rewrite (proj2 (list_contains_true _ _) Hin). simpl.
  by rewrite (list_remove_member _ _ _ Hin).
Qed.

(** C9: [handle_closed] of a port that is not in [closing_ports_] changes
    nothing, the trace included, so nothing is broadcast; and in any state
    a second [handle_closed] of the same port leaves the world as the
    first one left it. *)
Theorem handle_closed_idempotent (p : BasicPort) (w : World) :
  (p ∉ closing_ports_ (loop w) → handle_closed p w = Ok tt w) ∧
  (∃ w1, handle_closed p w = Ok tt w1 ∧
     (p ∉ closing_ports_ (loop w1)) ∧
     closing_ports_ (loop w1) = list_erase (closing_ports_ (loop w)) p ∧
     bind (handle_closed p) (λ _, handle_closed p) w = Ok tt w1).
Proof.
  split; [apply handle_closed_absent|].
  destruct (decide (p ∈ closing_ports_ (loop w))) as [Hin|Hnin].
  - eexists. split; [by apply handle_closed_member|]. simpl.
    split; [apply list_erase_not_in|]. split; [done|].
    unfold bind. rewrite (handle_closed_member _ _ Hin).
    apply handle_closed_absent. simpl. apply list_erase_not_in.
  - exists w. rewrite (list_erase_absent _ _ Hnin).
    unfold bind. rewrite !(handle_closed_absent _ _ Hnin). done.
Qed.

(** *** The handlers *)

Ltac run_handler :=
  unfold add_udp_receiver_, add_udp_sender_, remove_port_,
    resolve_endpoint_address_, async_close_port_, modify_task, modify_loop,
    modify_resolving, bind, get_task, set_task, get_loop, set_loop, extern,
    observe, emit, ret, list_push_back; simpl.

Ltac frame_done :=
  split; simpl; try done;
  try (intros ? ?; repeat case_decide; done);
  try (repeat case_decide; done);
  try (eexists; split;
       [ rewrite <- ?(assoc_L (++)); reflexivity
       | repeat constructor ]).

(** Every outcome of [add_udp_receiver_]. *)
Lemma add_udp_receiver_Ok t w :
  ∃ s w', add_udp_receiver_ t w = Ok s w' ∧
    handler_frame t w w' ∧ resolving w' = resolving w ∧
    match s with
    | TaskSucceeded => ∃ p,
        port (stack w' t) = Some p ∧
        rc_bind_address (receiver_config (stack w' t)) = port_address p (env w') ∧
        open_ports_ (loop w') = open_ports_ (loop w) ++ [p] ∧
        closing_ports_ (loop w') = closing_ports_ (loop w)
    | TaskFailed =>
        open_ports_ (loop w') = open_ports_ (loop w) ∧
        receiver_config (stack w' t) = receiver_config (stack w t) ∧
        sender_config (stack w' t) = sender_config (stack w t) ∧
        port_writer (stack w' t) = port_writer (stack w t) ∧
        ((port (stack w' t) = port (stack w t) ∧
          closing_ports_ (loop w') = closing_ports_ (loop w)) ∨
         (∃ p async,
            port (stack w' t) = Some p ∧
            last (trace w') = Some (EvPortAsyncClose p async) ∧
            closing_ports_ (loop w') =
              if async then closing_ports_ (loop w) ++ [p]
              else closing_ports_ (loop w)))
    | TaskPending => False
    end.
Proof.
  run_handler.
  destruct (new_receiver _ _ (env w)) as [[rp|] e1]; simpl.
  - destruct (port_open rp e1) as [[] e2]; simpl.
    + eexists _, _. split; [reflexivity|]. split; [frame_done|].
      split; [done|]. exists rp. simpl. repeat case_decide; done.
    + destruct (port_async_close rp e2) as [[] e3]; simpl.
      * eexists _, _. split; [reflexivity|]. split; [frame_done|].
        split; [done|]. simpl. repeat case_decide; try done.
        repeat split; try done. right. exists rp, true.
        by rewrite last_snoc.
      * eexists _, _. split; [reflexivity|]. split; [frame_done|].
        split; [done|]. simpl. repeat case_decide; try done.
        repeat split; try done. right. exists rp, false.
        by rewrite last_snoc.
  - eexists _, _. split; [reflexivity|]. split; [frame_done|].
    split; [done|]. simpl. repeat split; try done. by left.
Qed.

(** Every outcome of [add_udp_sender_]. *)
Lemma add_udp_sender_Ok t w :
  ∃ s w', add_udp_sender_ t w = Ok s w' ∧
    handler_frame t w w' ∧ resolving w' = resolving w ∧
    match s with
    | TaskSucceeded => ∃ p,
        port (stack w' t) = Some p ∧
        port_writer (stack w' t) = Some (SenderPortWriter p) ∧
        sc_bind_address (sender_config (stack w' t)) = port_address p (env w') ∧
        open_ports_ (loop w') = open_ports_ (loop w) ++ [p] ∧
        closing_ports_ (loop w') = closing_ports_ (loop w)
    | TaskFailed =>
        open_ports_ (loop w') = open_ports_ (loop w) ∧
        receiver_config (stack w' t) = receiver_config (stack w t) ∧
        sender_config (stack w' t) = sender_config (stack w t) ∧
        port_writer (stack w' t) = port_writer (stack w t) ∧
        ((port (stack w' t) = port (stack w t) ∧
          closing_ports_ (loop w') = closing_ports_ (loop w)) ∨
         (∃ p async,
            port (stack w' t) = Some p ∧
            last (trace w') = Some (EvPortAsyncClose p async) ∧
            closing_ports_ (loop w') =
              if async then closing_ports_ (loop w) ++ [p]
              else closing_ports_ (loop w)))
    | TaskPending => False
    end.
Proof.
  run_handler.
  destruct (new_sender _ (env w)) as [[rp|] e1]; simpl.
  - destruct (port_open rp e1) as [[] e2]; simpl.
    + eexists _, _. split; [reflexivity|]. split; [frame_done|].
      split; [done|]. exists rp. simpl. repeat case_decide; done.
    + destruct (port_async_close rp e2) as [[] e3]; simpl.
      * eexists _, _. split; [reflexivity|]. split; [frame_done|].
        split; [done|]. simpl. repeat case_decide; try done.
        repeat split; try done. right. exists rp, true.
        by rewrite last_snoc.
      * eexists _, _. split; [reflexivity|]. split; [frame_done|].
        split; [done|]. simpl. repeat case_decide; try done.
        repeat split; try done. right. exists rp, false.
        by rewrite last_snoc.
  - eexists _, _. split; [reflexivity|]. split; [frame_done|].
    split; [done|]. simpl. repeat split; try done. by left.
Qed.

(** [remove_port_], step by step. *)
Lemma remove_port_unfold t w :
  remove_port_ t w =
    match port (stack w t) with
    | None => Aborted (RocPanic NoPort) w
    | Some p =>
      let closed q :=
        bind (async_close_port_ p) (λ _, ret TaskSucceeded)
          {| loop := set_open_ports q (loop w); stack := stack w;
             resolving := resolving w; env := env w; trace := trace w |} in
      if list_contains (open_ports_ (loop w)) p
      then closed (list_erase (open_ports_ (loop w)) p)
      else if list_remove_checks then Aborted (RocPanic ListNotMember) w
           else closed (open_ports_ (loop w))
    end.
Proof.
  unfold remove_port_, bind at 1, get_task.
  destruct (port (stack w t)) as [p|]; [|done].
  unfold bind at 1, get_loop. unfold bind at 1, list_remove.
  destruct (list_contains _ p); [done|].
  by destruct list_remove_checks.
Qed.

(** [remove_port_] returns [TaskSucceeded] whenever it returns. *)
Lemma remove_port_Ok t w s w' :
  remove_port_ t w = Ok s w' →
  s = TaskSucceeded ∧ handler_frame t w w' ∧ resolving w' = resolving w ∧
  stack w' = stack w ∧
  ∃ p, port (stack w t) = Some p ∧
    open_ports_ (loop w') = list_erase (open_ports_ (loop w)) p ∧
    closing_ports_ (loop w') =
      if fst (port_async_close p (env w))
      then closing_ports_ (loop w) ++ [p] else closing_ports_ (loop w).
Proof.
  rewrite remove_port_unfold.
  destruct (port (stack w t)) as [p|] eqn:Hp; [|discriminate].
  assert (∀ q, q = list_erase (open_ports_ (loop w)) p →
    bind (async_close_port_ p) (λ _, ret TaskSucceeded)
      {| loop := set_open_ports q (loop w); stack := stack w;
         resolving := resolving w; env := env w; trace := trace w |} =
      Ok s w' →
    s = TaskSucceeded ∧ handler_frame t w w' ∧ resolving w' = resolving w ∧
    stack w' = stack w ∧
    ∃ p0, Some p = Some p0 ∧
      open_ports_ (loop w') = list_erase (open_ports_ (loop w)) p0 ∧
      closing_ports_ (loop w') =
        if fst (port_async_close p0 (env w))
        then closing_ports_ (loop w) ++ [p0] else closing_ports_ (loop w))
    as Hclosed.
  { intros q ->. run_handler.
    destruct (port_async_close p (env w)) as [[] e1] eqn:E; simpl;
      intros [= <- <-]; (split; [done|]); (split; [frame_done|]);
      simpl; (split; [done|]); (split; [done|]); exists p; by rewrite E. }
  simpl. destruct (list_contains _ p) eqn:Hc; [by apply Hclosed|].
  destruct list_remove_checks; [discriminate|].
  apply Hclosed. apply list_contains_false in Hc.
  by rewrite list_erase_absent.
Qed.

(** [remove_port_] does not return only when it has no port to remove, or
    when [List::remove] refuses a port that is not in [open_ports_]; it has
    done nothing by then. *)
Lemma remove_port_Aborted t w why w' :
  remove_port_ t w = Aborted why w' →
  w' = w ∧
  (why = RocPanic NoPort ∧ port (stack w t) = None ∨
   why = RocPanic ListNotMember ∧ list_remove_checks = true ∧
   ∃ p, port (stack w t) = Some p ∧ p ∉ open_ports_ (loop w)).
Proof.
  rewrite remove_port_unfold.
  destruct (port (stack w t)) as [p|] eqn:Hp.
  - assert (∀ v, bind (async_close_port_ p) (λ _, ret TaskSucceeded) v
                 ≠ Aborted why w') as Hclosed.
    { intros v. unfold bind.
      by destruct (async_close_port_Ok p v) as (w1 & -> & _). }
    simpl. destruct (list_contains _ p) eqn:Hc; [by intros ?%Hclosed|].
    apply list_contains_false in Hc.
    destruct list_remove_checks; [|by intros ?%Hclosed].
    intros [= <- <-]. split; [done|]. right. eauto.
  - intros [= <- <-]. split; [done|]. by left.
Qed.

(** Every outcome of [resolve_endpoint_address_]. *)
Lemma resolve_endpoint_address_Ok t w :
  ∃ s w', resolve_endpoint_address_ t w = Ok s w' ∧
    handler_frame t w w' ∧ loop w' = loop w ∧
    resolving w' =
      (if decide (s = TaskPending) then resolving w ++ [t] else resolving w) ∧
    fst (fst (async_resolve (resolve_req (stack w t)) (env w))) =
      bool_decide (s = TaskPending).
Proof.
  run_handler.
  destruct (async_resolve _ (env w)) as [[[] r] e1]; simpl.
  - eexists _, _. split; [reflexivity|]. split; [frame_done|]. done.
  - destruct (success r); eexists _, _; (split; [reflexivity|]);
      (split; [frame_done|]); done.
Qed.

(** What holds after any handler that returns. *)
Lemma call_func_Ok f t w s w' :
  call_func f t w = Ok s w' →
  handler_frame t w w' ∧
  resolving w' =
    (if decide (s = TaskPending) then resolving w ++ [t] else resolving w) ∧
  (s = TaskPending → f = F_resolve_endpoint_address).
Proof.
  destruct f; simpl.
  - destruct (add_udp_receiver_Ok t w) as (s1 & w1 & -> & ? & Hr & Hs).
    intros [= <- <-]. rewrite Hr. destruct s1; done.
  - destruct (add_udp_sender_Ok t w) as (s1 & w1 & -> & ? & Hr & Hs).
    intros [= <- <-]. rewrite Hr. destruct s1; done.
  - intros (-> & ? & -> & _)%remove_port_Ok. done.
  - destruct (resolve_endpoint_address_Ok t w)
      as (s1 & w1 & -> & ? & _ & Hr & _).
    intros [= <- <-]. rewrite Hr. done.
Qed.

(** A handler that does not return has panicked before it did anything;
    only [remove_port_] can. *)
Lemma call_func_Aborted f t w why w' :
  call_func f t w = Aborted why w' →
  w' = w ∧ f = F_remove_port ∧
  (why = RocPanic NoPort ∨ why = RocPanic ListNotMember).
Proof.
  destruct f; simpl.
  - destruct (add_udp_receiver_Ok t w) as (s1 & w1 & -> & _). discriminate.
  - destruct (add_udp_sender_Ok t w) as (s1 & w1 & -> & _). discriminate.
  - intros (-> & [[-> _]|[-> _]])%remove_port_Aborted; eauto.
  - destruct (resolve_endpoint_address_Ok t w) as (s1 & w1 & -> & _).
    discriminate.
Qed.

(** *** Draining the queue *)

(** The loop does what [drain] says, and a bound of the length of the
    queue is enough. *)
Lemma process_tasks_loop_drain fuel : ∀ notify w,
  NoDup (tasks_ (loop w)) →
  length (tasks_ (loop w)) ≤ fuel →
  drain notify w (process_tasks_loop fuel notify w).
Proof.
  induction fuel as [|fuel IH]; intros notify w Hnd Hlen.
  - destruct (tasks_ (loop w)) as [|t q] eqn:Hq; [|simpl in Hlen; lia].
    simpl. unfold bind, get_loop. rewrite Hq. simpl. by constructor.
  - simpl. unfold bind at 1, get_loop.
    destruct (tasks_ (loop w)) as [|t q] eqn:Hq; simpl.
    { by constructor. }
    unfold bind at 1.
    rewrite list_remove_member by (apply elem_of_cons; by left).
    rewrite (list_erase_head _ _ Hnd).
    unfold bind at 1, modify_loop, bind at 1, get_loop, set_loop.
    unfold bind at 1, get_task. unfold bind at 1, emit. simpl.
    unfold bind at 1. fold (popped w t q).
    destruct (call_func (func (stack w t)) t (popped w t q))
      as [s w2|why w2] eqn:Hcall.
    + eapply drain_next; [done..|].
      unfold bind at 1, assign_state, bind, get_task, emit, set_task. simpl.
      fold (stored w2 t s).
      apply call_func_Ok in Hcall as [Hf _].
      apply NoDup_cons in Hnd as [_ Hnd].
      apply IH; simpl; rewrite (hf_tasks _ _ _ Hf); simpl; [done|].
      simpl in Hlen. lia.
    + by eapply drain_panic.
Qed.

Lemma task_view_app evs1 evs2 :
  task_view (evs1 ++ evs2) = task_view evs1 ++ task_view evs2.
Proof. apply filter_app. Qed.

Lemma task_view_port_events evs :
  Forall (λ e, port_event e = true) evs → task_view evs = [].
Proof.
  induction 1 as [|e evs He _ IH]; [done|].
  unfold task_view in *. rewrite filter_cons_False; [done|]. by rewrite He.
Qed.

Lemma flat_map_agree {A B} (f g : A → list B) (l : list A) :
  (∀ x, x ∈ l → f x = g x) → flat_map f l = flat_map g l.
Proof.
  induction l as [|x l IH]; [done|]. intros Hfg. simpl.
  rewrite (Hfg x) by (apply elem_of_cons; by left).
  rewrite IH; [done|]. intros y Hy. apply Hfg, elem_of_cons. by right.
Qed.

Lemma drain_Ok n w r :
  drain n w r → NoDup (tasks_ (loop w)) →
  ∀ n' w', r = Ok n' w' → drained (tasks_ (loop w)) n w n' w'.
Proof.
  induction 1 as [n w Hq|n w t q why w2 Hq Hcall|n w t q s w2 r Hq Hcall _ IH];
    intros Hnd n' w'; [|discriminate|].
  - intros [= <- <-]. rewrite Hq. split; try done.
    + exists []. by rewrite app_nil_r.
    + rewrite bool_decide_eq_false_2; [by destruct n|]. by intros ?%Exists_nil.
    + by rewrite app_nil_r.
    + by intros u ?%elem_of_nil.
  - intros ->. rewrite Hq in Hnd |- *.
    apply NoDup_cons in Hnd as [Ht Hnd].
    apply call_func_Ok in Hcall as (Hf & Hres & Hpend).
    assert (tasks_ (loop (stored w2 t s)) = q) as Hq2.
    { simpl. by rewrite (hf_tasks _ _ _ Hf). }
    rewrite Hq2 in IH. specialize (IH Hnd _ _ eq_refl).
    destruct IH as [I1 I2 I3 I4 I5 I6 (evs & I7 & I8) I9 I10 I11].
    destruct Hf as [F1 F2 F3 F4 F5 F6 F7 F8 (hevs & F9 & F10)].
    simpl in *.
    assert (stack w' t = set_state s (stack w2 t)) as Ht'.
    { rewrite (I5 t Ht). by destruct (decide (t = t)). }
    assert (∀ u, u ∈ q → stack (stored w2 t s) u = stack w u) as Hu.
    { intros u Hin. simpl. destruct (decide (u = t)) as [Hut|Hut]; [by subst|].
      by apply F6. }
    split; simpl; try congruence.
    + intros u [Hut Huq]%not_elem_of_cons.
      rewrite (I5 u Huq). destruct (decide (u = t)); [done|]. by apply F6.
    + intros u. rewrite I6. destruct (decide (u = t)) as [Hut|Hut];
        [subst; by simpl|]. by rewrite F6.
    + exists ([EvHandler t (func (stack w t))] ++ hevs ++
              [EvTaskState t (state (stack w t)) s] ++ evs).
      split.
      { rewrite I7, F9, F8. by rewrite <- !(assoc_L (++)). }
      rewrite !task_view_app, (task_view_port_events _ F10), I8.
      rewrite Ht'. simpl. do 2 f_equal.
      apply flat_map_agree. intros u Hin. unfold task_record.
      by rewrite (Hu u Hin).
    + rewrite I9. unfold left_pending at 2. 
      destruct (decide (s ≠ TaskPending)) as [Hs|Hs].
      * rewrite (bool_decide_eq_true_2 (Exists _ (t :: q))).
        { by destruct n. }
        apply Exists_cons_hd. unfold left_pending. by rewrite Ht'.
      * f_equal. apply bool_decide_ext. rewrite Exists_cons.
        unfold left_pending at 2. rewrite Ht'. simpl. tauto.
    + rewrite I10, Hres. unfold still_pending at 2.
      destruct (decide (s = TaskPending)) as [Hs|Hs].
      * rewrite filter_cons_True by (unfold still_pending; by rewrite Ht').
        by rewrite <- (assoc_L (++)).
      * rewrite filter_cons_False by (unfold still_pending; by rewrite Ht').
        done.
    + intros u [->|Hin]%elem_of_cons Hpu.
      * apply Hpend. unfold still_pending in Hpu. by rewrite Ht' in Hpu.
      * rewrite <- (Hu u Hin). by apply I11.
Qed.

Lemma handler_runs_app evs1 evs2 :
  handler_runs (evs1 ++ evs2) = handler_runs evs1 ++ handler_runs evs2.
Proof. apply omap_app. Qed.

Lemma handler_runs_task_view evs :
  handler_runs (task_view evs) = handler_runs evs.
Proof.
  unfold task_view. induction evs as [|e evs IH]; [done|].
  destruct (decide (port_event e = false)) as [He|He].
  - rewrite filter_cons_True by done. simpl. by rewrite IH.
  - rewrite filter_cons_False by done. rewrite IH. by destruct e.
Qed.

Lemma handler_runs_records w w' q :
  handler_runs (flat_map (task_record w w') q) = q.
Proof. induction q as [|t q IH]; [done|]. simpl. by rewrite IH. Qed.

Lemma no_broadcast_task_view evs :
  EvTaskCondBroadcast ∈ evs ↔ EvTaskCondBroadcast ∈ task_view evs.
Proof. unfold task_view. rewrite list_elem_of_filter. simpl. tauto. Qed.

Lemma no_broadcast_records w w' q :
  EvTaskCondBroadcast ∉ flat_map (task_record w w') q.
Proof.
  induction q as [|t q IH]; simpl; [by intros ?%elem_of_nil|].
  rewrite !not_elem_of_cons. done.
Qed.

Lemma no_broadcast_port_events evs :
  Forall (λ e, port_event e = true) evs → EvTaskCondBroadcast ∉ evs.
Proof.
  intros Hall Hin. rewrite Forall_forall in Hall.
  by specialize (Hall _ Hin).
Qed.

Lemma handler_runs_port_events evs :
  Forall (λ e, port_event e = true) evs → handler_runs evs = [].
Proof.
  intros Hall. rewrite <- handler_runs_task_view.
  by rewrite task_view_port_events.
Qed.

(** A drain that does not return stopped in a handler that panicked: the
    handlers ran in the order of the queue up to that one, and nothing was
    broadcast. *)
Lemma drain_Aborted n w r :
  drain n w r → NoDup (tasks_ (loop w)) →
  ∀ why w', r = Aborted why w' →
  (why = RocPanic NoPort ∨ why = RocPanic ListNotMember) ∧
  ∃ evs, trace w' = trace w ++ evs ∧ (EvTaskCondBroadcast ∉ evs) ∧
    handler_runs evs `prefix_of` tasks_ (loop w).
Proof.
  induction 1 as [n w Hq|n w t q why w2 Hq Hcall|n w t q s w2 r Hq Hcall _ IH];
    intros Hnd why' w'; [discriminate| |].
  - intros [= <- <-].
    apply call_func_Aborted in Hcall as (-> & _ & Hwhy).
    split; [done|].
    exists [EvHandler t (func (stack w t))]. split; [done|].
    split; [by rewrite list_elem_of_singleton|].
    rewrite Hq. simpl. by apply prefix_cons, prefix_nil.
  - intros ->. rewrite Hq in Hnd |- *.
    apply NoDup_cons in Hnd as [Ht Hnd].
    apply call_func_Ok in Hcall as (Hf & _ & _).
    assert (tasks_ (loop (stored w2 t s)) = q) as Hq2.
    { simpl. by rewrite (hf_tasks _ _ _ Hf). }
    rewrite Hq2 in IH.
    destruct (IH Hnd _ _ eq_refl) as (Hwhy & evs & Htr & Hnb & Hpre).
    destruct Hf as [_ _ _ _ _ _ _ _ (hevs & F9 & F10)].
    split; [done|].
    exists ([EvHandler t (func (stack w t))] ++ hevs ++
            [EvTaskState t (state (stack w2 t)) s] ++ evs).
    split; [|split].
    + rewrite Htr. simpl. rewrite F9. simpl. by rewrite <- !(assoc_L (++)).
    + rewrite !elem_of_app, !list_elem_of_singleton.
      pose proof (no_broadcast_port_events _ F10).
      intros [?|[?|[?|?]]]; done.
    + rewrite !handler_runs_app, (handler_runs_port_events _ F10). simpl.
      by apply prefix_cons.
Qed.

(** [process_tasks_] never runs out of the bound of its loop: it returns,
    or a handler panicked. *)
Lemma process_tasks_drain w :
  NoDup (tasks_ (loop w)) →
  ∃ r, drain false w r ∧
    process_tasks_ w =
      match r with
      | Ok true w' =>
          Ok tt {| loop := loop w'; stack := stack w';
                   resolving := resolving w'; env := env w';
                   trace := trace w' ++ [EvTaskCondBroadcast] |}
      | Ok false w' => Ok tt w'
      | Aborted why w' => Aborted why w'
      end.
Proof.
  intros Hnd. exists (process_tasks_loop (length (tasks_ (loop w))) false w).
  split; [by apply process_tasks_loop_drain|].
  unfold process_tasks_, bind at 1, get_loop. unfold bind.
  by destruct process_tasks_loop as [[] ?|? ?].
Qed.

(** C5: [process_tasks_] calls the handlers of the queued tasks in the
    order of the queue and leaves the queue empty; [task_cond_] is
    broadcast at most once, as the last action, and exactly when some task
    that was pending is not pending afterwards.  If a handler panics
    instead, the handlers called so far are a prefix of the queue and
    nothing was broadcast. *)
Theorem process_tasks_fifo (w : World) :
  NoDup (tasks_ (loop w)) →
  Forall (still_pending w) (tasks_ (loop w)) →
  match process_tasks_ w with
  | Ok _ w' =>
      tasks_ (loop w') = [] ∧
      ∃ evs,
        handler_runs evs = tasks_ (loop w) ∧
        (EvTaskCondBroadcast ∉ evs) ∧
        trace w' = trace w ++ evs ++
          (if decide (Exists (λ t, still_pending w t ∧ left_pending w' t)
                        (tasks_ (loop w)))
           then [EvTaskCondBroadcast] else [])
  | Aborted why w' =>
      why ≠ OutOfFuel ∧
      ∃ evs, trace w' = trace w ++ evs ∧ (EvTaskCondBroadcast ∉ evs) ∧
        handler_runs evs `prefix_of` tasks_ (loop w)
  end.
Proof.
  intros Hnd Hpend.
  destruct (process_tasks_drain w Hnd) as (r & Hdrain & ->).
  destruct r as [n w'|why w'].
  - pose proof (drain_Ok _ _ _ Hdrain Hnd _ _ eq_refl)
      as [D1 _ _ _ D5 _ (evs & D7 & D8) D9 _ _].
    assert (Exists (λ t, still_pending w t ∧ left_pending w' t)
              (tasks_ (loop w)) ↔
            Exists (left_pending w') (tasks_ (loop w))) as Hex.
    { rewrite !Exists_exists. rewrite Forall_forall in Hpend.
      split; [intros (t & ? & _ & ?)|intros (t & ? & ?)]; exists t; auto. }
    assert (handler_runs evs = tasks_ (loop w)) as Hruns.
    { by rewrite <- handler_runs_task_view, D8, handler_runs_records. }
    assert (EvTaskCondBroadcast ∉ evs) as Hnb.
    { rewrite no_broadcast_task_view, D8. apply no_broadcast_records. }
    simpl in D9. subst n.
    destruct (bool_decide _) eqn:Hb.
    + apply bool_decide_eq_true in Hb. simpl. split; [done|].
      exists evs. split; [done|]. split; [done|].
      rewrite decide_True by (by apply Hex). by rewrite D7, (assoc_L (++)).
    + apply bool_decide_eq_false in Hb. split; [done|].
      exists evs. split; [done|]. split; [done|].
      rewrite decide_False by (by rewrite Hex). by rewrite app_nil_r.
  - destruct (drain_Aborted _ _ _ Hdrain Hnd _ _ eq_refl)
      as ([-> | ->] & ?); done.
Qed.

(** *** Stopping *)

Lemma async_close_ports_loop_Ok fuel : ∀ w,
  NoDup (open_ports_ (loop w)) →
  length (open_ports_ (loop w)) ≤ fuel →
  ∃ closes w',
    async_close_ports_loop fuel w = Ok tt w' ∧
    closes.*1 = open_ports_ (loop w) ∧
    loop w' = ports_closed closes (loop w) ∧
    stack w' = stack w ∧ resolving w' = resolving w ∧
    trace w' = trace w ++ close_events closes.
Proof.
  induction fuel as [|fuel IH]; intros w Hnd Hlen.
  - destruct (open_ports_ (loop w)) as [|p q] eqn:Hq; [|simpl in Hlen; lia].
    exists [], w. simpl. unfold bind, get_loop. rewrite Hq. simpl.
    split; [done|]. split; [done|]. split; [|by rewrite app_nil_r].
    unfold ports_closed, closing_of. simpl. rewrite app_nil_r.
    destruct (loop w); simpl in *. by subst.
  - simpl. unfold bind at 1, get_loop.
    destruct (open_ports_ (loop w)) as [|p q] eqn:Hq; simpl.
    { exists [], w. split; [done|]. split; [done|].
      split; [|by rewrite app_nil_r].
      unfold ports_closed, closing_of. simpl. rewrite app_nil_r.
      destruct (loop w); simpl in *. by subst. }
    unfold bind at 1.
    rewrite list_remove_member by (apply elem_of_cons; by left).
    rewrite (list_erase_head _ _ Hnd).
    unfold bind at 1, modify_loop, bind at 1, get_loop, set_loop.
    unfold bind at 1.
    match goal with |- context [async_close_port_ p ?v] =>
      destruct (async_close_port_Ok p v) as (w1 & -> & Hs & Hr & _ & Ht & Hl)
    end.
    simpl in Hs, Hr, Ht, Hl.
    apply NoDup_cons in Hnd as [Hp Hnd].
    destruct (IH w1) as (closes & w' & -> & Hc1 & Hc2 & Hc3 & Hc4 & Hc5).
    { rewrite Hl. by destruct (fst _). }
    { rewrite Hl. simpl in Hlen. destruct (fst _); simpl; lia. }
    exists ((p, fst (port_async_close p (env w))) :: closes), w'.
    split; [done|]. split.
    { rewrite fmap_cons, Hc1, Hl. simpl. by destruct (fst _). }
    split; [|split; [congruence|split; [congruence|]]].
    + rewrite Hc2, Hl. unfold ports_closed, closing_of.
      destruct (fst (port_async_close p (env w))); simpl; [|done].
      by rewrite <- (assoc_L (++)).
    + rewrite Hc5, Ht. simpl. by rewrite <- (assoc_L (++)).
Qed.

(** Every outcome of [close_sems_]. *)
Lemma close_sems_Ok w :
  ∃ w', close_sems_ w = Ok tt w' ∧
    loop w' = set_sem_initialized StopSem false
                (set_sem_initialized TaskSem false (loop w)) ∧
    stack w' = stack w ∧ resolving w' = resolving w ∧
    trace w' = trace w ++
      (if task_sem_initialized_ (loop w) then [EvUvClose TaskSem] else []) ++
      (if stop_sem_initialized_ (loop w) then [EvUvClose StopSem] else []).
Proof.
  unfold close_sems_, bind at 1, get_loop. unfold bind at 1.
  destruct (loop w) as [st li ss ts tq op cl] eqn:Hl.
  unfold set_sem_initialized. simpl.
  destruct ts, ss; unfold bind, extern_, emit, modify_loop, bind, get_loop,
    set_loop, ret; simpl; rewrite ?Hl; simpl;
    eexists; (split; [reflexivity|]); simpl; rewrite ?Hl, ?app_nil_r;
    simpl; by rewrite <- ?(assoc_L (++)).
Qed.

(** The handlers [process_tasks_] calls, whatever the state of the tasks. *)
Lemma process_tasks_runs w :
  NoDup (tasks_ (loop w)) →
  match process_tasks_ w with
  | Ok _ w' =>
      tasks_ (loop w') = [] ∧
      ∃ evs, trace w' = trace w ++ evs ∧ handler_runs evs = tasks_ (loop w)
  | Aborted why w' =>
      why ≠ OutOfFuel ∧
      ∃ evs, trace w' = trace w ++ evs ∧
        handler_runs evs `prefix_of` tasks_ (loop w)
  end.
Proof.
  intros Hnd.
  destruct (process_tasks_drain w Hnd) as (r & Hdrain & ->).
  destruct r as [n w'|why w'].
  - pose proof (drain_Ok _ _ _ Hdrain Hnd _ _ eq_refl)
      as [D1 _ _ _ _ _ (evs & D7 & D8) _ _ _].
    assert (handler_runs evs = tasks_ (loop w)) as Hruns.
    { by rewrite <- handler_runs_task_view, D8, handler_runs_records. }
    destruct n; simpl; (split; [done|]).
    + exists (evs ++ [EvTaskCondBroadcast]).
      rewrite D7, handler_runs_app, Hruns. simpl.
      by rewrite app_nil_r, (assoc_L (++)).
    + by exists evs.
  - destruct (drain_Aborted _ _ _ Hdrain Hnd _ _ eq_refl)
      as ([-> | ->] & evs & ? & _ & ?); eauto.
Qed.


(** *** The destructor *)

Lemma res_value_Some {A} (r : Res A) a :
  res_value r = Some a → r = Ok a (res_world r).
Proof. destruct r; [by intros [= ->]|discriminate]. Qed.

(** C8, as the code has it: when the thread was never started, the
    destructor closes each wakeup that is initialized (the task wakeup,
    then the stop wakeup), and then, if the reactor is initialized, runs it
    once and closes it; it does nothing else that shows outside, so it
    neither signals the stop wakeup nor joins. *)
Theorem dtor_never_started (w : World) :
  started_ (loop w) = false →
  trace (res_world (EventLoop_dtor w)) =
    trace w ++
    (if task_sem_initialized_ (loop w) then [EvUvClose TaskSem] else []) ++
    (if stop_sem_initialized_ (loop w) then [EvUvClose StopSem] else []) ++
    (if loop_initialized_ (loop w) then [EvUvRun; EvUvLoopClose] else []).
Proof.
  intros Hs. unfold EventLoop_dtor, bind at 1, get_loop. rewrite Hs.
  unfold bind at 1.
  destruct (close_sems_Ok w) as (w1 & -> & Hl & _ & _ & Ht).
  unfold bind at 1, get_loop. rewrite Hl. simpl. rewrite Hs.
  unfold run, roc_panic_if, roc_panic, bind, extern, emit, observe, get_loop,
    ret. simpl.
  destruct (loop_initialized_ (loop w)); simpl.
  - destruct (uv_run (env w1)) as [e1 v1]. simpl.
    destruct (uv_loop_close v1) as [e2 v2]. simpl.
    repeat case_match; simplify_eq/=;
      rewrite Ht; by rewrite <- ?(assoc_L (++)).
  - repeat case_match; simplify_eq/=;
      rewrite Ht; by rewrite <- ?(assoc_L (++)), ?app_nil_r.
Qed.

(** *** One call at a time *)

Lemma state_task_of_call c : state (task_of_call c) = TaskPending.
Proof. by destruct c. Qed.

Lemma enter_Ok t c w th w1 :
  enter t c w = Ok th w1 →
  started_ (loop w) = true ∧ c ≠ RemovePort None ∧ th = parked c ∧
  w1 = entered t c (snd (uv_async_send TaskSem (env w))) w.
Proof.
  unfold enter, bind at 1, get_loop. unfold bind at 1, roc_panic_if, valid.
  destruct (started_ (loop w)); simpl; [|discriminate].
  unfold ret at 1, bind at 1.
  assert (c ≠ RemovePort None →
    (do_ set_task t (task_of_call c); run_task_ t (parked c)) w = Ok th w1 →
    true = true ∧ c ≠ RemovePort None ∧ th = parked c ∧
    w1 = entered t c (snd (uv_async_send TaskSem (env w))) w) as Hrest.
  { intros Hc. unfold run_task_, bind, set_task, modify_loop, bind, get_loop,
      set_loop, extern, emit, roc_panic_if, run_task_wait, bind, get_task,
      list_push_back. simpl.
    destruct (uv_async_send TaskSem (env w)) as [err e]. simpl.
    destruct (bool_decide (err ≠ 0)); simpl; [discriminate|].
    destruct (decide (t = t)); [|done].
    rewrite state_task_of_call. simpl. by intros [= <- <-]. }
  destruct c as [| |[h|]|]; try (apply Hrest; discriminate).
  discriminate.
Qed.

Lemma process_tasks_single t w w2 :
  tasks_ (loop w) = [t] →
  process_tasks_ w = Ok tt w2 →
  ∃ s wh, call_func (func (stack w t)) t (popped w t []) = Ok s wh ∧
          w2 = answered wh t s.
Proof.
  intros Hq. unfold process_tasks_, bind at 1, get_loop. rewrite Hq.
  unfold bind at 1. simpl. unfold bind at 1, get_loop. rewrite Hq. simpl.
  unfold bind at 1.
  rewrite list_remove_member by (by apply list_elem_of_singleton).
  rewrite (list_erase_head t []) by (apply NoDup_singleton).
  unfold bind at 1, modify_loop, bind at 1, get_loop, set_loop.
  unfold bind at 1, get_task. unfold bind at 1, emit. simpl.
  unfold bind at 1. fold (popped w t []).
  destruct (call_func (func (stack w t)) t (popped w t []))
    as [s wh|why wh] eqn:Hcall; [|discriminate].
  unfold bind at 1, assign_state, bind, get_task, emit, set_task, get_loop.
  simpl. apply call_func_Ok in Hcall as Hf. destruct Hf as (Hf & _).
  rewrite (hf_tasks _ _ _ Hf). simpl. unfold ret, answered, stored.
  intros H. exists s, wh. split; [done|].
  destruct (decide (s ≠ TaskPending)); by injection H as <-.
Qed.

(** A call on an empty queue, taken apart. *)
Lemma call_alone_Ok t c w th w' :
  tasks_ (loop w) = [] →
  call_alone t c w = Ok th w' →
  ∃ e s wh,
    started_ (loop w) = true ∧ c ≠ RemovePort None ∧
    call_func (func (task_of_call c)) t
      (popped (entered t c e w) t []) = Ok s wh ∧
    w' = answered wh t s ∧
    run_task_wait t (parked c) w' = Ok th w'.
Proof.
  intros Hq. unfold call_alone. intros H.
  apply bind_Ok in H as (th0 & w1 & Hent & H).
  apply bind_Ok in H as ([] & w2 & Hproc & Hres).
  apply enter_Ok in Hent as (Hst & Hc & -> & ->).
  apply process_tasks_single with (t := t) in Hproc
    as (s & wh & Hcall & ->); [|simpl; by rewrite Hq].
  simpl in Hcall. destruct (decide (t = t)); [|done].
  exists (snd (uv_async_send TaskSem (env w))), s, wh.
  split; [done|]. split; [done|]. split; [done|].
  assert (∀ v v', run_task_wait t (parked c) v = Ok th v' → v' = v) as Hsame.
  { intros v v'. unfold run_task_wait, after_run_task, wait_port_closed_,
      roc_panic_if, roc_panic, bind, get_task, get_loop, ret.
    repeat case_match; simplify_eq/=; congruence. }
  unfold resume in Hres. simpl in Hres.
  pose proof (Hsame _ _ Hres) as ->. done.
Qed.

Lemma answered_loop wh t s : loop (answered wh t s) = loop wh.
Proof. unfold answered. by case_decide. Qed.

Lemma answered_env wh t s : env (answered wh t s) = env wh.
Proof. unfold answered. by case_decide. Qed.

Lemma answered_stack wh t s :
  stack (answered wh t s) t = set_state s (stack wh t).
Proof. unfold answered. case_decide; simpl; by case_decide. Qed.

Lemma answered_trace_last wh t s :
  s ≠ TaskPending →
  trace (answered wh t s) =
    trace wh ++ [EvTaskState t (state (stack wh t)) s; EvTaskCondBroadcast].
Proof.
  intros Hs. unfold answered. rewrite decide_True by done. simpl.
  by rewrite <- (assoc_L (++)).
Qed.

(** What an add call on an empty queue comes to: the handler's outcome on
    the task the call made, and the caller's reading of it. *)
Lemma add_call_alone t c w th w' :
  is_add c → tasks_ (loop w) = [] →
  call_alone t c w = Ok th w' →
  ∃ v wh s,
    stack v t = task_of_call c ∧ loop v = loop w ∧
    call_func (func (task_of_call c)) t v = Ok s wh ∧
    s ≠ TaskPending ∧
    loop w' = loop wh ∧ env w' = env wh ∧
    stack w' t = set_state s (stack wh t) ∧
    trace w' =
      trace wh ++ [EvTaskState t TaskPending s; EvTaskCondBroadcast] ∧
    after_run_task t (parked c) w' = Ok th w'.
Proof.
  intros Hadd Hq Hcall.
  apply call_alone_Ok in Hcall as (e & s & wh & _ & _ & Hf & -> & Hwait);
    [|done].
  set (v := popped (entered t c e w) t []) in *.
  assert (stack v t = task_of_call c) as Hv.
  { unfold v. simpl. by case_decide. }
  assert (s ≠ TaskPending) as Hs.
  { intros ->. apply call_func_Ok in Hf as (_ & _ & Hres).
    specialize (Hres eq_refl). by destruct c. }
  pose proof Hf as Hframe. apply call_func_Ok in Hframe as (Hframe & _).
  exists v, wh, s. split; [done|]. split.
  { unfold v. simpl. revert Hq. destruct (loop w). simpl. by intros ->. }
  split; [done|]. split; [done|].
  split; [apply answered_loop|]. split; [apply answered_env|].
  split; [apply answered_stack|]. split.
  { rewrite answered_trace_last by done.
    by rewrite (hf_state _ _ _ Hframe), Hv, state_task_of_call. }
  revert Hwait. unfold run_task_wait, bind at 1, get_task.
  rewrite answered_stack. simpl. by rewrite decide_False.
Qed.

(** A thread parked in [wait_port_closed_] stays parked while the port is
    in [closing_ports_] and returns once it is not; it changes nothing. *)
Lemma resume_in_wait_closed t p r th v :
  pc th = InWaitClosed p r →
  ∃ th', resume t th v = Ok th' v ∧
    writer_out th' = writer_out th ∧
    (p ∈ closing_ports_ (loop v) → th' = th) ∧
    (p ∉ closing_ports_ (loop v) → pc th' = Returned r).
Proof.
  intros Hpc. unfold resume. rewrite Hpc.
  unfold wait_port_closed_, bind, get_loop, ret.
  destruct (list_contains (closing_ports_ (loop v)) p) eqn:Hc.
  - apply list_contains_true in Hc. eexists. split; [done|].
    split; [done|]. split; [|done].
    intros _. destruct th. simpl in *. by subst.
  - apply list_contains_false in Hc. eexists. split; [done|].
    split; [done|]. split; [done|]. done.
Qed.

(** The handler of an add call that fails, on a task as the call made
    it. *)
Lemma add_handler_fails t c v wh :
  is_add c → stack v t = task_of_call c →
  call_func (func (task_of_call c)) t v = Ok TaskFailed wh →
  open_ports_ (loop wh) = open_ports_ (loop v) ∧
  receiver_config (stack wh t) = receiver_config (task_of_call c) ∧
  sender_config (stack wh t) = sender_config (task_of_call c) ∧
  port_writer (stack wh t) = port_writer (task_of_call c) ∧
  func (stack wh t) = func (task_of_call c) ∧
  ((port (stack wh t) = None ∧
    closing_ports_ (loop wh) = closing_ports_ (loop v)) ∨
   (∃ p async,
      port (stack wh t) = Some p ∧
      last (trace wh) = Some (EvPortAsyncClose p async) ∧
      closing_ports_ (loop wh) =
        if async then closing_ports_ (loop v) ++ [p]
        else closing_ports_ (loop v))).
Proof.
  intros Hadd Hv Hf.
  destruct c as [cfg wr|cfg wo| |]; try done; simpl in Hf.
  - destruct (add_udp_receiver_Ok t v) as (s1 & w1 & Heq & Hfr & _ & Hs1).
    rewrite Heq in Hf. injection Hf as -> ->.
    destruct Hs1 as (Ho & Hc & Hc' & Hw & Hp). rewrite Hv in Hc, Hc', Hw, Hp.
    by rewrite (hf_func _ _ _ Hfr), Hv.
  - destruct (add_udp_sender_Ok t v) as (s1 & w1 & Heq & Hfr & _ & Hs1).
    rewrite Heq in Hf. injection Hf as -> ->.
    destruct Hs1 as (Ho & Hc & Hc' & Hw & Hp). rewrite Hv in Hc, Hc', Hw, Hp.
    by rewrite (hf_func _ _ _ Hfr), Hv.
Qed.

(** What the caller of a failed add call does after [run_task_]. *)
Lemma after_failed_add t c w' th :
  is_add c → state (stack w' t) = TaskFailed →
  after_run_task t (parked c) w' = Ok th w' →
  writer_out th = writer_out (parked c) ∧
  match port (stack w' t) with
  | None => pc th = Returned (RetHandle None)
  | Some p =>
      (pc th = Returned (RetHandle None) ∧ p ∉ closing_ports_ (loop w')) ∨
      (pc th = InWaitClosed p (RetHandle None) ∧ p ∈ closing_ports_ (loop w'))
  end.
Proof.
  intros Hadd Hst. unfold after_run_task, bind at 1, get_task.
  assert (∀ p, wait_port_closed_ p (RetHandle None) (parked c) w' = Ok th w' →
    writer_out th = writer_out (parked c) ∧
    ((pc th = Returned (RetHandle None) ∧ p ∉ closing_ports_ (loop w')) ∨
     (pc th = InWaitClosed p (RetHandle None) ∧ p ∈ closing_ports_ (loop w'))))
    as Hwait.
  { intros p. unfold wait_port_closed_, bind, get_loop, ret.
    destruct (list_contains _ p) eqn:Hc; intros [= <-]; (split; [done|]).
    - right. by apply list_contains_true in Hc.
    - left. by apply list_contains_false in Hc. }
  destruct c as [cfg wr|cfg wo| |]; try done; simpl; rewrite Hst; simpl;
    (destruct (port (stack w' t)) as [p|]; [apply Hwait|]);
    by intros [= <-].
Qed.

(** C3, as the code has it: an add call that fails leaves [open_ports_],
    hence [num_ports()], as it was and returns null.  If it had created a
    port, [async_close()] was called on it, and the port was appended to
    [closing_ports_] if that asked for an asynchronous close and left out of
    it otherwise; the caller has returned only if the port is not in
    [closing_ports_], and otherwise stays parked for as long as it is. *)
Theorem add_port_fails (t : TaskId) (c : Call) (w : World) (th : Thread)
    (w' : World) :
  is_add c →
  tasks_ (loop w) = [] →
  call_alone t c w = Ok th w' →
  state (stack w' t) = TaskFailed →
  open_ports_ (loop w') = open_ports_ (loop w) ∧
  num_ports (loop w') = num_ports (loop w) ∧
  (∀ r, pc th = Returned r → r = RetHandle None) ∧
  match port (stack w' t) with
  | None =>
      closing_ports_ (loop w') = closing_ports_ (loop w) ∧
      pc th = Returned (RetHandle None)
  | Some p => ∃ async,
      EvPortAsyncClose p async ∈ trace w' ∧
      closing_ports_ (loop w') =
        (if async then closing_ports_ (loop w) ++ [p]
         else closing_ports_ (loop w)) ∧
      ((pc th = Returned (RetHandle None) ∧ p ∉ closing_ports_ (loop w')) ∨
       (pc th = InWaitClosed p (RetHandle None) ∧
        p ∈ closing_ports_ (loop w') ∧
        ∀ v, ∃ th', resume t th v = Ok th' v ∧
          (p ∈ closing_ports_ (loop v) → th' = th) ∧
          (p ∉ closing_ports_ (loop v) → pc th' = Returned (RetHandle None))))
  end.
Proof.
  intros Hadd Hq Hcall Hfail.
  apply add_call_alone in Hcall
    as (v & wh & s & Hv & Hlv & Hf & Hs & Hl & He & Hst & Htr & Hafter);
    [|done..].
  pose proof Hfail as Hs'. rewrite Hst in Hs'. simpl in Hs'. subst s.
  destruct (add_handler_fails _ _ _ _ Hadd Hv Hf)
    as (Ho & _ & _ & _ & _ & Hport).
  destruct (after_failed_add _ _ _ _ Hadd Hfail Hafter) as (_ & Hpc).
  assert (open_ports_ (loop w') = open_ports_ (loop w)) as Hopen.
  { by rewrite Hl, Ho, Hlv. }
  split; [done|]. split; [unfold num_ports; by rewrite Hopen|].
  assert (port (stack w' t) = port (stack wh t)) as Hp.
  { by rewrite Hst. }
  rewrite Hp in Hpc |- *. rewrite Hl, <- Hlv.
  destruct Hport as [[Hnone Hcl]|(p & async & Hsome & Hlast & Hcl)].
  - rewrite Hnone in Hpc |- *. split; [|done].
    intros r. rewrite Hpc. by intros [= <-].
  - rewrite Hsome in Hpc |- *. split.
    { intros r. destruct Hpc as [[-> _]|[-> _]]; [|done]. by intros [= <-]. }
    exists async. split.
    { rewrite Htr. apply elem_of_app. left.
      apply last_Some in Hlast as (l' & ->).
      apply elem_of_app. right. by apply list_elem_of_singleton. }
    split; [done|]. rewrite Hl in Hpc.
    destruct Hpc as [Hret|[Hpc Hin]]; [by left|]. right.
    split; [done|]. split; [done|]. intros v0.
    destruct (resume_in_wait_closed t _ _ _ v0 Hpc) as (th' & ? & _ & ? & ?).
    eauto.
Qed.

(** C10: an add call that fails has written neither the variable that
    [writer] points to nor the config: both are as the caller passed
    them, and stay so while the caller waits for the port to close. *)
Theorem failed_add_writes_nothing (t : TaskId) (c : Call) (w : World)
    (th : Thread) (w' : World) :
  is_add c →
  tasks_ (loop w) = [] →
  call_alone t c w = Ok th w' →
  state (stack w' t) = TaskFailed →
  writer_out th = writer_out (parked c) ∧
  receiver_config (stack w' t) = receiver_config (task_of_call c) ∧
  sender_config (stack w' t) = sender_config (task_of_call c) ∧
  bound_address (stack w' t) = config_address c ∧
  ∀ v th' v', resume t th v = Ok th' v' →
    v' = v ∧ writer_out th' = writer_out th.
Proof.
  intros Hadd Hq Hcall Hfail.
  apply add_call_alone in Hcall
    as (v & wh & s & Hv & Hlv & Hf & Hs & Hl & He & Hst & Htr & Hafter);
    [|done..].
  pose proof Hfail as Hs'. rewrite Hst in Hs'. simpl in Hs'. subst s.
  destruct (add_handler_fails _ _ _ _ Hadd Hv Hf)
    as (_ & Hrc & Hsc & _ & Hfunc & _).
  destruct (after_failed_add _ _ _ _ Hadd Hfail Hafter) as (Hw & Hpc).
  split; [done|]. rewrite Hst. simpl.
  split; [done|]. split; [done|]. split.
  { unfold bound_address. simpl. rewrite Hfunc, Hrc, Hsc.
    by destruct c. }
  intros v0 th' v'.
  assert (pc th = Returned (RetHandle None) ∨
          ∃ p, pc th = InWaitClosed p (RetHandle None)) as [Hr|(p & Hp)].
  { destruct (port (stack w' t)); [|by left].
    destruct Hpc as [[? _]|[? _]]; eauto. }
  - unfold resume. rewrite Hr. by intros [= <- <-].
  - destruct (resume_in_wait_closed t _ _ _ v0 Hp) as (th1 & -> & ? & _).
    by intros [= <- <-].
Qed.

(** *** Removing a port *)

Lemma process_tasks_Aborted w why w' :
  NoDup (tasks_ (loop w)) →
  process_tasks_ w = Aborted why w' →
  why = RocPanic NoPort ∨ why = RocPanic ListNotMember.
Proof.
  intros Hnd. destruct (process_tasks_drain w Hnd) as (r & Hdrain & ->).
  destruct r as [[] ?|why1 w1]; try discriminate.
  intros [= -> ->].
  by destruct (drain_Aborted _ _ _ Hdrain Hnd _ _ eq_refl) as (? & _).
Qed.

Lemma enter_Aborted t c w why w1 :
  enter t c w = Aborted why w1 →
  why = RocPanic InvalidLoop ∨ why = RocPanic NullHandle ∨
  why = RocPanic AsyncSendFailed.
Proof.
  unfold enter, bind at 1, get_loop. unfold bind at 1, roc_panic_if, valid.
  destruct (started_ (loop w)); simpl; [|intros [= <- _]; by left].
  unfold ret at 1, bind at 1.
  assert ((do_ set_task t (task_of_call c); run_task_ t (parked c)) w
            = Aborted why w1 → why = RocPanic AsyncSendFailed) as Hrest.
  { unfold run_task_, bind, set_task, modify_loop, bind, get_loop,
      set_loop, extern, emit, roc_panic_if, roc_panic, run_task_wait, bind,
      get_task, list_push_back. simpl.
    destruct (uv_async_send TaskSem (env w)) as [err e]. simpl.
    destruct (bool_decide (err ≠ 0)); simpl; [by intros [= <- _]|].
    destruct (decide (t = t)); [|done].
    rewrite state_task_of_call. simpl. discriminate. }
  destruct c as [| |[h|]|]; try (intros ?%Hrest; by eauto).
  unfold roc_panic. intros [= <- _]. eauto.
Qed.

(** [remove_port] never sees a failed task: when the call gets past
    [run_task_] the task has succeeded, whether the handle was a port of
    [open_ports_] or not, and the call never panics with "unknown port". *)
Lemma remove_call_never_failed t h w :
  tasks_ (loop w) = [] →
  match call_alone t (RemovePort h) w with
  | Ok th w' =>
      state (stack w' t) = TaskSucceeded ∧
      ∃ p, h = Some p ∧
        (pc th = InWaitClosed p RetVoid ∨ pc th = Returned RetVoid)
  | Aborted why w' => why ≠ RocPanic UnknownPort
  end.
Proof.
  intros Hq.
  destruct (call_alone t (RemovePort h) w) as [th w'|why w'] eqn:Hcall.
  - apply call_alone_Ok in Hcall as (e & s & wh & _ & Hh & Hf & -> & Hwait);
      [|done].
    simpl in Hf. pose proof Hf as Hf'.
    apply remove_port_Ok in Hf' as (-> & _ & _ & Hstack & p & Hp & _).
    simpl in Hp. destruct (decide (t = t)); [|done]. simpl in Hp. subst h.
    rewrite answered_stack. split; [done|]. exists p. split; [done|].
    revert Hwait. unfold run_task_wait, bind at 1, get_task.
    rewrite answered_stack. simpl.
    unfold after_run_task, bind at 1, get_task. rewrite answered_stack.
    simpl. rewrite Hstack. simpl. destruct (decide (t = t)); [|done]. simpl.
    unfold wait_port_closed_, roc_panic_if, bind, get_loop, ret. simpl.
    destruct (list_contains _ p); intros [= <-]; simpl; eauto.
  - unfold call_alone in Hcall.
    apply bind_Aborted in Hcall as [Hent|(th0 & w1 & Hent & Hcall)].
    { apply enter_Aborted in Hent as [->|[->| ->]]; done. }
    pose proof Hent as Hent'.
    apply enter_Ok in Hent' as (_ & _ & -> & ->).
    apply bind_Aborted in Hcall as [Hproc|([] & w2 & Hproc & Hres)].
    { apply process_tasks_Aborted in Hproc as [-> | ->]; [done..|].
      simpl. rewrite Hq. apply NoDup_singleton. }
    apply process_tasks_single with (t := t) in Hproc
      as (s & wh & Hf & ->); [|simpl; by rewrite Hq].
    simpl in Hf. destruct (decide (t = t)); [|done]. simpl in Hf.
    apply remove_port_Ok in Hf as (-> & _ & _ & Hstack & p & Hp & _).
    revert Hres. unfold resume. simpl.
    unfold run_task_wait, bind at 1, get_task.
    rewrite answered_stack. simpl.
    unfold after_run_task, bind at 1, get_task. rewrite answered_stack.
    simpl. rewrite Hstack. simpl. destruct (decide (t = t)); [|done]. simpl.
    unfold wait_port_closed_, roc_panic_if, roc_panic, bind, get_loop, ret.
    simpl. simpl in Hp. destruct (decide (t = t)); [|done]. simpl in Hp.
    rewrite Hp. by destruct (list_contains _ p).
Qed.

(** *** Every task completes once *)

Lemma transitions_app t evs1 evs2 :
  transitions t (evs1 ++ evs2) = transitions t evs1 ++ transitions t evs2.
Proof. apply filter_app. Qed.

Lemma transitions_task_view t evs :
  transitions t (task_view evs) = transitions t evs.
Proof.
  unfold transitions, task_view. induction evs as [|e evs IH]; [done|].
  destruct (decide (port_event e = false)) as [He|He].
  - rewrite (filter_cons_True (λ e, port_event e = false)) by done.
    destruct (decide (state_change t e)).
    + rewrite !(filter_cons_True (state_change t)) by done. by rewrite IH.
    + rewrite !(filter_cons_False (state_change t)) by done. by rewrite IH.
  - rewrite (filter_cons_False (λ e, port_event e = false)) by done.
    rewrite IH. rewrite filter_cons_False; [done|].
    destruct e; simpl in *; first [congruence|tauto].
Qed.

Lemma transitions_records_other w w' t q :
  t ∉ q → transitions t (flat_map (task_record w w') q) = [].
Proof.
  induction q as [|u q IH]; [done|].
  intros [Hne Hq]%not_elem_of_cons. simpl. unfold transitions in *.
  rewrite filter_cons_False by (simpl; tauto).
  rewrite filter_cons_False by (simpl; intros [? _]; congruence).
  by apply IH.
Qed.

Lemma transitions_record w w' t :
  transitions t (task_record w w' t) =
    if decide (state (stack w t) = state (stack w' t)) then []
    else [EvTaskState t (state (stack w t)) (state (stack w' t))].
Proof.
  unfold transitions, task_record.
  rewrite filter_cons_False by (simpl; tauto).
  case_decide.
  - rewrite filter_cons_False; [done|]. simpl. tauto.
  - rewrite filter_cons_True; [done|]. simpl. tauto.
Qed.

Lemma transitions_record_other w w' t u :
  u ≠ t → transitions t (task_record w w' u) = [].
Proof.
  intros Hne. unfold transitions, task_record.
  rewrite filter_cons_False by (simpl; tauto).
  rewrite filter_cons_False by (simpl; tauto). done.
Qed.

Lemma transitions_records_member w w' t q :
  NoDup q → t ∈ q →
  transitions t (flat_map (task_record w w') q) =
    if decide (state (stack w t) = state (stack w' t)) then []
    else [EvTaskState t (state (stack w t)) (state (stack w' t))].
Proof.
  induction q as [|u q IH]; [by intros _ ?%elem_of_nil|].
  intros [Hu Hnd]%NoDup_cons [->|Hin]%elem_of_cons.
  - change (flat_map (task_record w w') (u :: q))
      with (task_record w w' u ++ flat_map (task_record w w') q).
    rewrite transitions_app, (transitions_records_other _ _ _ _ Hu).
    by rewrite app_nil_r, transitions_record.
  - assert (u ≠ t) by (intros ->; done).
    change (flat_map (task_record w w') (u :: q))
      with (task_record w w' u ++ flat_map (task_record w w') q).
    rewrite transitions_app, (IH Hnd Hin).
    by rewrite transitions_record_other.
Qed.

(** What the invariant of a task depends on. *)
Lemma thread_inv_frame w w' t th :
  (t ∈ tasks_ (loop w') ↔ t ∈ tasks_ (loop w)) →
  (t ∈ resolving w' ↔ t ∈ resolving w) →
  state (stack w' t) = state (stack w t) →
  transitions t (trace w') = transitions t (trace w) →
  thread_inv w t th → thread_inv w' t th.
Proof.
  intros Hq Hr Hs Ht.
  unfold thread_inv, unused, queued, in_resolver, completed.
  destruct th as [th|]; [destruct (pc th)|]; rewrite Hq, Hr, ?Hs, Ht; done.
Qed.

Lemma task_equiv_refl w : task_equiv w w.
Proof. split; try done. exists []. by rewrite app_nil_r. Qed.

Lemma task_equiv_trans w1 w2 w3 :
  task_equiv w1 w2 → task_equiv w2 w3 → task_equiv w1 w3.
Proof.
  intros [A1 A2 A3 (e1 & A4 & A5)] [B1 B2 B3 (e2 & B4 & B5)].
  split; try congruence. exists (e1 ++ e2). split.
  - by rewrite B4, A4, (assoc_L (++)).
  - intros t. by rewrite transitions_app, A5, B5.
Qed.

Lemma task_equiv_inv w w' ths :
  task_equiv w w' →
  sys_inv {| world := w; threads := ths |} →
  sys_inv {| world := w'; threads := ths |}.
Proof.
  intros [A1 A2 A3 (evs & A4 & A5)] [I1 I2]. simpl in *.
  split; simpl; [by rewrite A1|].
  intros t.
  apply (thread_inv_frame w);
    [by rewrite A1|by rewrite A2|by rewrite A3| |apply I2].
  by rewrite A4, transitions_app, A5, app_nil_r.
Qed.

Lemma transitions_port_events t evs :
  Forall (λ e, port_event e = true) evs → transitions t evs = [].
Proof.
  intros Hall. rewrite <- transitions_task_view.
  by rewrite task_view_port_events.
Qed.

Lemma async_close_port_equiv p w w' :
  async_close_port_ p w = Ok tt w' → task_equiv w w'.
Proof.
  destruct (async_close_port_Ok p w) as (w1 & -> & Hs & Hr & _ & Ht & Hl).
  intros [= <-]. split; try done.
  - rewrite Hl. by destruct (fst _).
  - eexists. split; [done|]. intros t. apply transitions_port_events.
    by repeat constructor.
Qed.

Lemma async_close_ports_loop_equiv fuel : ∀ w w',
  async_close_ports_loop fuel w = Ok tt w' → task_equiv w w'.
Proof.
  induction fuel as [|fuel IH]; intros w w'; simpl;
    unfold bind at 1, get_loop;
    (destruct (list_front (open_ports_ (loop w))) as [p|];
       [|intros [= <-]; apply task_equiv_refl]); [discriminate|].
  intros H. inv_ok.
  match goal with H : list_remove _ _ _ = _ |- _ =>
    apply list_remove_Ok in H; destruct H as [-> ->] end.
  repeat match goal with u : unit |- _ => destruct u end.
  match goal with H : modify_loop _ _ = Ok _ ?v |- _ =>
    assert (task_equiv w v) as E1
      by (unfold modify_loop, bind, get_loop, set_loop in H;
          injection H as <-; split; try done;
          exists []; by rewrite app_nil_r) end.
  match goal with H : async_close_port_ _ _ = _ |- _ =>
    apply async_close_port_equiv in H end.
  match goal with H : async_close_ports_loop _ _ = _ |- _ =>
    apply IH in H end.
  eauto using task_equiv_trans.
Qed.

Lemma close_sems_equiv w w' : close_sems_ w = Ok tt w' → task_equiv w w'.
Proof.
  destruct (close_sems_Ok w) as (w1 & -> & Hl & Hs & Hr & Ht).
  intros [= <-]. split; try done.
  - by rewrite Hl.
  - eexists. split; [done|]. intros t.
    by destruct (task_sem_initialized_ _), (stop_sem_initialized_ _).
Qed.

Lemma handle_closed_equiv p w w' :
  handle_closed p w = Ok tt w' → task_equiv w w'.
Proof.
  destruct (decide (p ∈ closing_ports_ (loop w))) as [Hin|Hnin].
  - rewrite (handle_closed_member _ _ Hin). intros [= <-].
    split; try done. by exists [EvCloseCondBroadcast].
  - rewrite (handle_closed_absent _ _ Hnin). intros [= <-].
    apply task_equiv_refl.
Qed.

(** A task that is in the queue is pending and untouched. *)
Lemma in_queue_queued s t :
  sys_inv s → t ∈ tasks_ (loop (world s)) → queued (world s) t.
Proof.
  intros [_ I2] Hin. specialize (I2 t). unfold thread_inv in I2.
  destruct (threads s t) as [th|].
  - destruct (pc th);
      [destruct I2 as [?|[(? & _)|(? & _)]]; done
      |destruct I2 as (? & _); done..].
  - destruct I2 as (? & _); done.
Qed.

(** A task whose request is with the resolver is pending, untouched, and
    its thread is in [run_task_]. *)
Lemma in_resolver_waiting s t :
  sys_inv s → t ∈ resolving (world s) →
  in_resolver (world s) t ∧
  ∃ th, threads s t = Some th ∧ pc th = InRunTask.
Proof.
  intros [_ I2] Hin. specialize (I2 t). unfold thread_inv in I2.
  destruct (threads s t) as [th|].
  - destruct (pc th) eqn:Hpc;
      [destruct I2 as [(_ & ? & _)|[?|(_ & ? & _)]]; try done; eauto
      |destruct I2 as (_ & ? & _); done..].
  - destruct I2 as (_ & ? & _); done.
Qed.

(** [process_tasks_] keeps the invariant. *)
Lemma process_tasks_inv w w' ths :
  sys_inv {| world := w; threads := ths |} →
  process_tasks_ w = Ok tt w' →
  sys_inv {| world := w'; threads := ths |}.
Proof.
  intros Hinv Hproc. pose proof Hinv as [Hnd I2]. simpl in *.
  destruct (process_tasks_drain w Hnd) as (r & Hdrain & Heq).
  rewrite Heq in Hproc. destruct r as [n wd|]; [|discriminate].
  pose proof (drain_Ok _ _ _ Hdrain Hnd _ _ eq_refl)
    as [D1 _ _ _ D5 _ (evs & D7 & D8) _ D10 _].
  assert (task_equiv wd w') as Heqv.
  { destruct n; injection Hproc as <-; [|apply task_equiv_refl].
    split; try done. by exists [EvTaskCondBroadcast]. }
  apply (task_equiv_inv wd); [done|]. clear Heqv Hproc Heq w'.
  split; simpl; [rewrite D1; constructor|].
  intros t. specialize (I2 t).
  assert (transitions t (trace wd) =
          transitions t (trace w) ++
          transitions t (flat_map (task_record w wd) (tasks_ (loop w))))
    as Htr.
  { by rewrite D7, transitions_app, <- (transitions_task_view t evs), D8. }
  destruct (decide (t ∈ tasks_ (loop w))) as [Hin|Hout].
  - destruct (in_queue_queued _ t Hinv Hin) as (_ & Hres & Hst & Ht).
    simpl in *.
    rewrite (transitions_records_member _ _ _ _ Hnd Hin), Ht, Hst in Htr.
    assert (∃ th, ths t = Some th ∧ pc th = InRunTask) as (th & Hth & Hpc).
    { unfold thread_inv in I2. destruct (ths t) as [th|].
      - exists th. split; [done|].
        destruct (pc th); [done|destruct I2 as (? & _); done..].
      - destruct I2 as (? & _); done. }
    unfold thread_inv. rewrite Hth, Hpc. right.
    destruct (decide (state (stack wd t) = TaskPending)) as [Hp|Hp].
    + left. rewrite Hp in Htr. rewrite decide_True in Htr by done.
      split; [rewrite D1; apply not_elem_of_nil|].
      split; [|done].
      rewrite D10. apply elem_of_app. right.
      by apply list_elem_of_filter.
    + right. rewrite decide_False in Htr by congruence.
      split; [rewrite D1; apply not_elem_of_nil|].
      split; [|done].
      rewrite D10. intros [?|[? _]%list_elem_of_filter]%elem_of_app; done.
  - rewrite (transitions_records_other _ _ _ _ Hout), app_nil_r in Htr.
    assert (thread_inv w t (ths t) → ¬ queued w t →
            thread_inv wd t (ths t)) as Hkeep.
    { unfold thread_inv, unused, queued, in_resolver, completed.
      assert (t ∈ resolving wd ↔ t ∈ resolving w) as Hiff.
      { rewrite D10, elem_of_app, list_elem_of_filter. tauto. }
      pose proof (not_elem_of_nil t).
      destruct (ths t) as [th|]; [destruct (pc th)|];
        rewrite D1, Hiff, ?(D5 t Hout), Htr; tauto. }
    apply Hkeep; [done|]. by intros (? & _).
Qed.

(** Entering a call keeps the invariant. *)
Lemma enter_inv s t c th w :
  sys_inv s → threads s t = None →
  enter t c (world s) = Ok th w →
  sys_inv (set_thread t th s w).
Proof.
  intros [I1 I2] Hnone (_ & _ & -> & ->)%enter_Ok.
  pose proof (I2 t) as Ht. rewrite Hnone in Ht.
  destruct Ht as (Hq & Hr & Htr).
  split; simpl.
  - apply NoDup_app. split; [done|]. split; [|apply NoDup_singleton].
    intros u Hu ->%list_elem_of_singleton. done.
  - intros u. unfold thread_inv. destruct (decide (u = t)) as [->|Hne].
    + simpl. left. unfold queued. simpl.
      rewrite decide_True by done. rewrite state_task_of_call.
      split; [apply elem_of_app; right; by apply list_elem_of_singleton|].
      split; [done|]. split; [done|].
      by rewrite transitions_app, Htr.
    + apply (thread_inv_frame (world s)); simpl.
      * rewrite elem_of_app, list_elem_of_singleton. tauto.
      * done.
      * by rewrite decide_False.
      * by rewrite transitions_app, app_nil_r.
      * apply I2.
Qed.

(** A thread that wakes up changes nothing, and leaves [run_task_] only
    when its task is not pending. *)
Lemma resume_Ok t th w th' w' :
  resume t th w = Ok th' w' →
  w' = w ∧
  (pc th ≠ InRunTask → pc th' ≠ InRunTask) ∧
  (pc th = InRunTask → pc th' = InRunTask ∨
                       state (stack w t) ≠ TaskPending).
Proof.
  unfold resume, run_task_wait, after_run_task, wait_port_closed_,
    roc_panic_if, roc_panic, bind, get_task, get_loop, ret.
  repeat case_match; simplify_eq/=; intros; simplify_eq/=;
    (split; [done|]); split; intros; simplify_eq/=; eauto; congruence.
Qed.

Lemma resume_inv s t th th' w :
  sys_inv s → threads s t = Some th →
  resume t th (world s) = Ok th' w →
  sys_inv (set_thread t th' s w).
Proof.
  intros [I1 I2] Hth (-> & Hkeep & Hleave)%resume_Ok.
  split; simpl; [done|].
  intros u. destruct (decide (u = t)) as [->|Hne]; [|apply I2].
  specialize (I2 t). rewrite Hth in I2. unfold thread_inv in *.
  destruct (pc th) eqn:Hpc.
  - destruct (Hleave eq_refl) as [->|Hst]; [done|].
    assert (completed (world s) t) as Hc.
    { destruct I2 as [(_ & _ & ? & _)|[(_ & _ & ? & _)|?]]; done. }
    by destruct (pc th').
  - specialize (Hkeep ltac:(done)). by destruct (pc th').
  - specialize (Hkeep ltac:(done)). by destruct (pc th').
Qed.

(** The completion of a request by the resolver keeps the invariant. *)
Lemma resolved_inv s t ok a w :
  sys_inv s → t ∈ resolving (world s) →
  resolver_completes t ok a (world s) = Ok tt w →
  sys_inv {| world := w; threads := threads s |}.
Proof.
  intros Hinv Hin Hres.
  destruct (in_resolver_waiting _ _ Hinv Hin)
    as ((Hq & _ & Hst & Htr) & th & Hth & Hpc).
  destruct Hinv as [I1 I2].
  revert Hres. unfold resolver_completes, handle_resolved, assign_state,
    modify_task, modify_resolving, bind, get_task, set_task, emit. simpl.
  rewrite !decide_True by done. simpl. rewrite Hst. intros [= <-].
  set (new := if ok then TaskSucceeded else TaskFailed).
  assert (new ≠ TaskPending) as Hnew by (unfold new; by destruct ok).
  split; simpl; [done|].
  intros u. destruct (decide (u = t)) as [->|Hne].
  - rewrite Hth. unfold thread_inv. rewrite Hpc. right. right.
    unfold completed. simpl. rewrite !decide_True by done. simpl.
    split; [done|]. split; [apply list_erase_not_in|]. split; [done|].
    rewrite <- (assoc_L (++)), transitions_app, Htr. simpl.
    unfold transitions. rewrite filter_cons_True by (simpl; by split).
    rewrite filter_cons_False by (simpl; tauto). done.
  - apply (thread_inv_frame (world s)); simpl; [done| | | |apply I2].
    + rewrite list_erase_in. tauto.
    + by rewrite !decide_False.
    + rewrite <- (assoc_L (++)), transitions_app.
      unfold transitions at 2. cbn [app].
      rewrite filter_cons_False by (simpl; intros [? _]; congruence).
      rewrite filter_cons_False by (simpl; tauto).
      by rewrite app_nil_r.
Qed.

Lemma step_inv s s' : sys_inv s → step s s' → sys_inv s'.
Proof.
  intros Hinv Hstep.
  destruct Hstep as [s t c th w Hnone Hent|s t th th' w Hth Hres
    |s w _ Hcb|s w _ Hcb|s p w Hcl|s t ok a w Hin Hres].
  - by eapply enter_inv.
  - by eapply resume_inv.
  - apply (process_tasks_inv (world s)); [by destruct s|done].
  - unfold stop_sem_cb_ in Hcb.
    apply bind_Ok in Hcb as ([] & w1 & H1 & Hcb).
    apply bind_Ok in Hcb as ([] & w2 & H2 & Hcb).
    unfold async_close_ports_, bind, get_loop in H1.
    apply async_close_ports_loop_equiv in H1.
    apply close_sems_equiv in H2.
    apply (process_tasks_inv w2); [|done].
    apply (task_equiv_inv (world s)); [by eapply task_equiv_trans|].
    by destruct s.
  - apply handle_closed_equiv in Hcl.
    apply (task_equiv_inv (world s)); [done|by destruct s].
  - by eapply resolved_inv.
Qed.

Lemma quiet_inv s : quiet s → sys_inv s.
Proof.
  intros (Hth & Hq & Hr & Htr). split.
  - rewrite Hq. constructor.
  - intros t. rewrite Hth. unfold thread_inv, unused.
    rewrite Hq, Hr, Htr. repeat split; apply not_elem_of_nil.
Qed.

Lemma steps_inv s s' : sys_inv s → steps s s' → sys_inv s'.
Proof. induction 2; eauto using step_inv. Qed.

(** C4: in every state the threads can reach from a loop on which no call
    was made yet, a thread that has left [run_task_] has a task that is
    not pending, and the state of that task changed exactly once, from
    pending to what it is. *)
Theorem run_task_completes_once (s0 s : System) (t : TaskId) (th : Thread) :
  quiet s0 →
  steps s0 s →
  threads s t = Some th →
  pc th ≠ InRunTask →
  ∃ st,
    st ≠ TaskPending ∧
    state (stack (world s) t) = st ∧
    transitions t (trace (world s)) = [EvTaskState t TaskPending st].
Proof.
  intros Hq Hsteps Hth Hpc.
  pose proof (steps_inv _ _ (quiet_inv _ Hq) Hsteps) as [_ I2].
  specialize (I2 t). rewrite Hth in I2. unfold thread_inv in I2.
  assert (completed (world s) t) as (_ & _ & Hst & Htr).
  { by destruct (pc th). }
  eauto.
Qed.

(** *** The public interface, call by call *)

Lemma enter_eq t c w :
  started_ (loop w) = true → c ≠ RemovePort None →
  fst (uv_async_send TaskSem (env w)) = 0 →
  enter t c w =
    Ok (parked c) (entered t c (snd (uv_async_send TaskSem (env w))) w).
Proof.
  intros Hst Hc Herr.
  unfold enter, bind at 1, get_loop. unfold bind at 1, roc_panic_if, valid.
  rewrite Hst. simpl. unfold ret at 1, bind at 1.
  assert ((do_ set_task t (task_of_call c); run_task_ t (parked c)) w =
    Ok (parked c) (entered t c (snd (uv_async_send TaskSem (env w))) w))
    as Hrest.
  { unfold run_task_, bind, set_task, modify_loop, bind, get_loop,
      set_loop, extern, emit, roc_panic_if, run_task_wait, bind, get_task,
      list_push_back. simpl. revert Herr.
    destruct (uv_async_send TaskSem (env w)) as [err e]. simpl. intros ->.
    simpl. destruct (decide (t = t)); [|done].
    rewrite state_task_of_call. simpl. by destruct c. }
  destruct c as [| |[h|]|]; try exact Hrest. done.
Qed.

Lemma process_tasks_single_eq t w :
  tasks_ (loop w) = [t] →
  process_tasks_ w =
    match call_func (func (stack w t)) t (popped w t []) with
    | Ok s wh => Ok tt (answered wh t s)
    | Aborted why wh => Aborted why wh
    end.
Proof.
  intros Hq. unfold process_tasks_, bind at 1, get_loop. rewrite Hq.
  unfold bind at 1. simpl. unfold bind at 1, get_loop. rewrite Hq. simpl.
  unfold bind at 1.
  rewrite list_remove_member by (by apply list_elem_of_singleton).
  rewrite (list_erase_head t []) by (apply NoDup_singleton).
  unfold bind at 1, modify_loop, bind at 1, get_loop, set_loop.
  unfold bind at 1, get_task. unfold bind at 1, emit. simpl.
  unfold bind at 1. fold (popped w t []).
  destruct (call_func (func (stack w t)) t (popped w t []))
    as [s wh|why wh] eqn:Hcall; [|done].
  unfold bind at 1, assign_state, bind, get_task, emit, set_task, get_loop.
  simpl. apply call_func_Ok in Hcall as Hf. destruct Hf as (Hf & _).
  rewrite (hf_tasks _ _ _ Hf). simpl. unfold ret, answered, stored.
  by destruct (decide (s ≠ TaskPending)).
Qed.

(** A call on a valid loop with an empty queue, when the wakeup can be
    signalled: the handler runs on the task the call made, and the caller
    reads its answer. *)
Lemma call_alone_eq t c w :
  started_ (loop w) = true → c ≠ RemovePort None →
  fst (uv_async_send TaskSem (env w)) = 0 →
  tasks_ (loop w) = [] →
  call_alone t c w =
    match call_func (func (task_of_call c)) t
            (popped (entered t c (snd (uv_async_send TaskSem (env w))) w)
                    t []) with
    | Ok s wh => run_task_wait t (parked c) (answered wh t s)
    | Aborted why wh => Aborted why wh
    end.
Proof.
  intros Hst Hc Herr Hq. unfold call_alone, bind at 1.
  rewrite enter_eq by done. unfold bind at 1, task_sem_cb_.
  rewrite (process_tasks_single_eq t) by (simpl; by rewrite Hq).
  simpl. destruct (decide (t = t)); [|done].
  by destruct (call_func _ t _).
Qed.

(** The handler of an add call whose port is allocated and opens, on a
    task as the call made it. *)
Lemma add_handler_succeeds t c v p e1 e2 :
  is_add c → stack v t = task_of_call c →
  allocate c (env v) = (Some p, e1) →
  port_open p e1 = (true, e2) →
  ∃ wh, call_func (func (task_of_call c)) t v = Ok TaskSucceeded wh ∧
    env wh = e2 ∧
    state (stack wh t) = TaskPending ∧
    port (stack wh t) = Some p ∧
    bound_address (stack wh t) = port_address p e2 ∧
    open_ports_ (loop wh) = open_ports_ (loop v) ++ [p] ∧
    closing_ports_ (loop wh) = closing_ports_ (loop v).
Proof.
  intros Hadd Hv Hnew Hopen.
  destruct c as [cfg wr|cfg wo| |]; try done; simpl in Hnew |- *;
    run_handler; rewrite Hv; simpl; rewrite Hnew; simpl; rewrite Hopen; simpl;
    eexists; (split; [reflexivity|]); simpl;
    unfold bound_address; simpl; repeat case_decide; try done;
    rewrite ?Hv; by simpl.
Qed.

(** C2: an add call whose port is allocated and opens.  The handler
    stores the address the port is bound to in the caller's config,
    appends the port to [open_ports_] and returns [TaskSucceeded], which is
    what the task goes to from pending; the call returns the port, which is
    not null, and [num_ports()] is one more than before. *)
Theorem add_port_succeeds (t : TaskId) (c : Call) (w : World) (p : BasicPort)
    (e1 e2 : Env) :
  is_add c →
  valid (loop w) = true →
  fst (uv_async_send TaskSem (env w)) = 0 →
  tasks_ (loop w) = [] →
  allocate c (snd (uv_async_send TaskSem (env w))) = (Some p, e1) →
  port_open p e1 = (true, e2) →
  ∃ th w',
    call_alone t c w = Ok th w' ∧
    state (stack w' t) = TaskSucceeded ∧
    EvTaskState t TaskPending TaskSucceeded ∈ trace w' ∧
    bound_address (stack w' t) = port_address p (env w') ∧
    env w' = e2 ∧
    open_ports_ (loop w') = open_ports_ (loop w) ++ [p] ∧
    closing_ports_ (loop w') = closing_ports_ (loop w) ∧
    pc th = Returned (RetHandle (Some p)) ∧
    num_ports (loop w') = S (num_ports (loop w)).
Proof.
  intros Hadd Hst Herr Hq Hnew Hopen. unfold valid in Hst.
  assert (c ≠ RemovePort None) as Hc by (by destruct c).
  rewrite call_alone_eq by done.
  set (e := snd (uv_async_send TaskSem (env w))) in *.
  set (v := popped (entered t c e w) t []).
  assert (stack v t = task_of_call c) as Hv.
  { unfold v. simpl. by case_decide. }
  assert (loop v = loop w) as Hlv.
  { unfold v. simpl. revert Hq. destruct (loop w). simpl. by intros ->. }
  destruct (add_handler_succeeds t c v p e1 e2 Hadd Hv Hnew Hopen)
    as (wh & -> & He & Hs & Hp & Haddr & Ho & Hcl).
  set (w' := answered wh t TaskSucceeded).
  assert (stack w' t = set_state TaskSucceeded (stack wh t)) as Hst'
    by apply answered_stack.
  assert (∃ th, run_task_wait t (parked c) w' = Ok th w' ∧
                pc th = Returned (RetHandle (Some p))) as (th & -> & Hpc).
  { unfold run_task_wait, bind at 1, get_task. rewrite Hst'. simpl.
    unfold after_run_task, bind at 1, get_task. rewrite Hst'. simpl.
    rewrite Hp.
    destruct c as [cfg wr|cfg wo| |]; try done; simpl;
      unfold roc_panic_if, bind, ret; simpl; eexists; split; done. }
  exists th, w'. split; [done|]. split; [by rewrite Hst'|].
  split.
  { unfold w'. rewrite answered_trace_last by done. rewrite Hs.
    apply elem_of_app. right. apply elem_of_cons. by left. }
  rewrite Hst'. unfold w'.
  rewrite answered_env, answered_loop, He, Ho, Hcl, Hlv.
  split; [done|].
  split; [done|]. split; [done|]. split; [done|]. split; [done|].
  unfold num_ports. rewrite Ho, Hlv, length_app. simpl. lia.
Qed.

(** X2: no public call gets anywhere on an invalid loop, and [remove_port]
    gets nowhere with a null handle: the call panics at once, with no task
    queued, no wakeup signalled and nothing else changed. *)
Theorem invalid_call_panics_untouched (t : TaskId) (c : Call) (w : World) :
  (valid (loop w) = false →
     enter t c w = Aborted (RocPanic InvalidLoop) w ∧
     call_alone t c w = Aborted (RocPanic InvalidLoop) w) ∧
  (valid (loop w) = true →
     enter t (RemovePort None) w = Aborted (RocPanic NullHandle) w ∧
     call_alone t (RemovePort None) w = Aborted (RocPanic NullHandle) w).
Proof.
  split; intros Hv.
  - assert (enter t c w = Aborted (RocPanic InvalidLoop) w) as He.
    { unfold enter, bind at 1, get_loop. unfold bind at 1, roc_panic_if.
      by rewrite Hv. }
    split; [done|]. unfold call_alone, bind at 1. by rewrite He.
  - assert (enter t (RemovePort None) w = Aborted (RocPanic NullHandle) w)
      as He.
    { unfold enter, bind at 1, get_loop. unfold bind at 1, roc_panic_if.
      by rewrite Hv. }
    split; [done|]. unfold call_alone, bind at 1. by rewrite He.
Qed.

Lemma list_erase_app_last l p : p ∉ l → list_erase (l ++ [p]) p = l.
Proof.
  intros Hp. unfold list_erase. rewrite filter_app.
  fold (list_erase l p). rewrite (list_erase_absent _ _ Hp).
  rewrite filter_cons_False by tauto. by rewrite app_nil_r.
Qed.

Lemma list_erase_NoDup_length l p :
  NoDup l → p ∈ l → S (length (list_erase l p)) = length l.
Proof.
  induction l as [|x l IH]; [by intros _ ?%elem_of_nil|].
  intros Hnd Hin. pose proof Hnd as [Hx Hl]%NoDup_cons.
  destruct (decide (x = p)) as [->|Hne].
  - by rewrite (list_erase_head _ _ Hnd).
  - apply elem_of_cons in Hin as [?|Hin]; [congruence|].
    unfold list_erase. rewrite filter_cons_True by done. simpl.
    f_equal. by apply IH.
Qed.

(** X3: [remove_port] of a port of [open_ports_], on a valid loop with an
    empty queue: the call does not panic; the port leaves [open_ports_], so
    [num_ports()] drops by one at once; [async_close()] is called on it and
    it joins [closing_ports_] exactly when that asks to wait; and the
    caller has returned exactly when the port is not in [closing_ports_]. *)
Theorem remove_open_port (t : TaskId) (p : BasicPort) (w : World) :
  started_ (loop w) = true →
  fst (uv_async_send TaskSem (env w)) = 0 →
  tasks_ (loop w) = [] →
  NoDup (open_ports_ (loop w)) →
  p ∈ open_ports_ (loop w) →
  ∃ th w' async,
    call_alone t (RemovePort (Some p)) w = Ok th w' ∧
    state (stack w' t) = TaskSucceeded ∧
    open_ports_ (loop w') = list_erase (open_ports_ (loop w)) p ∧
    (p ∉ open_ports_ (loop w')) ∧
    S (num_ports (loop w')) = num_ports (loop w) ∧
    EvPortAsyncClose p async ∈ trace w' ∧
    closing_ports_ (loop w') =
      (if async then closing_ports_ (loop w) ++ [p]
       else closing_ports_ (loop w)) ∧
    pc th = (if list_contains (closing_ports_ (loop w')) p
             then InWaitClosed p RetVoid else Returned RetVoid).
Proof.
  intros Hst Herr Hq Hnd Hin.
  rewrite call_alone_eq by done. simpl.
  set (e := snd (uv_async_send TaskSem (env w))).
  set (v := popped (entered t (RemovePort (Some p)) e w) t []).
  rewrite remove_port_unfold.
  assert (port (stack v t) = Some p) as ->.
  { unfold v. simpl. by destruct (decide (t = t)). }
  simpl. rewrite (proj2 (list_contains_true _ _) Hin).
  unfold bind at 1.
  match goal with |- context [async_close_port_ p ?u] =>
    destruct (async_close_port_Ok p u) as (wa & -> & Hs & Hr & He & Ht & Hl)
  end.
  simpl in Hs, Hr, He, Ht, Hl. unfold ret.
  unfold run_task_wait, bind at 1, get_task. rewrite answered_stack. simpl.
  unfold after_run_task, bind at 1, get_task. rewrite answered_stack. simpl.
  rewrite Hs. simpl. destruct (decide (t = t)); [|done]. simpl.
  unfold roc_panic_if, bind at 1, ret. simpl.
  unfold wait_port_closed_, bind, get_loop, ret. rewrite answered_loop.
  exists (set_pc (if list_contains (closing_ports_ (loop wa)) p
                  then InWaitClosed p RetVoid else Returned RetVoid)
            (parked (RemovePort (Some p)))),
    (answered wa t TaskSucceeded), (fst (port_async_close p e)).
  split; [by destruct (list_contains _ p)|].
  rewrite answered_stack, answered_loop. simpl.
  split; [done|].
  assert (open_ports_ (loop wa) = list_erase (open_ports_ (loop w)) p) as Ho.
  { rewrite Hl. destruct (fst (port_async_close p e)); reflexivity. }
  split; [done|]. split; [rewrite Ho; apply list_erase_not_in|].
  split; [unfold num_ports; rewrite Ho; by apply list_erase_NoDup_length|].
  split.
  { rewrite Ht, !elem_of_app, !elem_of_cons. tauto. }
  split; [|done].
  rewrite Hl. destruct (fst (port_async_close p e)); reflexivity.
Qed.

(** The caller of an add call that succeeded. *)
Lemma add_call_succeeded t c w th w' :
  is_add c → tasks_ (loop w) = [] →
  call_alone t c w = Ok th w' →
  state (stack w' t) = TaskSucceeded →
  ∃ p, open_ports_ (loop w') = open_ports_ (loop w) ++ [p] ∧
    closing_ports_ (loop w') = closing_ports_ (loop w) ∧
    tasks_ (loop w') = [] ∧
    port (stack w' t) = Some p ∧
    pc th = Returned (RetHandle (Some p)) ∧
    writer_out th =
      match c with
      | AddUdpSender _ (Some _) => Some (Some (SenderPortWriter p))
      | _ => None
      end ∧
    (func (task_of_call c) = F_add_udp_sender →
     port_writer (stack w' t) = Some (SenderPortWriter p)).
Proof.
  intros Hadd Hq Hcall Hsucc.
  apply add_call_alone in Hcall
    as (v & wh & s & Hv & Hlv & Hf & Hs & Hl & He & Hst & Htr & Hafter);
    [|done..].
  rewrite Hst in Hsucc. simpl in Hsucc. subst s.
  pose proof Hf as Hfr. apply call_func_Ok in Hfr as (Hfr & _).
  assert (∃ p, port (stack wh t) = Some p ∧
            open_ports_ (loop wh) = open_ports_ (loop v) ++ [p] ∧
            closing_ports_ (loop wh) = closing_ports_ (loop v) ∧
            (func (task_of_call c) = F_add_udp_sender →
             port_writer (stack wh t) = Some (SenderPortWriter p)))
    as (p & Hp & Hopen & Hcl & Hpw).
  { destruct c as [cfg wr|cfg wo| |]; try done; simpl in Hf.
    - destruct (add_udp_receiver_Ok t v) as (s1 & w1 & Heq & _ & _ & Hs1).
      rewrite Heq in Hf. injection Hf as -> ->.
      destruct Hs1 as (p & ? & ? & ? & ?). exists p. by simpl.
    - destruct (add_udp_sender_Ok t v) as (s1 & w1 & Heq & _ & _ & Hs1).
      rewrite Heq in Hf. injection Hf as -> ->.
      destruct Hs1 as (p & ? & ? & ? & ? & ?). exists p. by simpl. }
  exists p. rewrite Hl, Hst, Hopen, Hcl, Hlv, (hf_tasks _ _ _ Hfr), Hlv.
  simpl. split; [done|]. split; [done|]. split; [done|]. split; [done|].
  revert Hafter. unfold after_run_task, bind at 1, get_task.
  rewrite Hst. simpl. rewrite Hp.
  destruct c as [cfg wr|cfg wo| |]; try done; simpl;
    unfold roc_panic_if, bind, ret; simpl.
  - by intros [= <-].
  - specialize (Hpw eq_refl). rewrite Hpw.
    destruct wo; by intros [= <-].
Qed.

(** An add call returns a port only if its task succeeded. *)
Lemma add_call_returned_port t c w th w' p :
  is_add c → tasks_ (loop w) = [] →
  call_alone t c w = Ok th w' →
  pc th = Returned (RetHandle (Some p)) →
  state (stack w' t) = TaskSucceeded.
Proof.
  intros Hadd Hq Hcall Hpc.
  apply add_call_alone in Hcall
    as (v & wh & s & Hv & Hlv & Hf & Hs & Hl & He & Hst & Htr & Hafter);
    [|done..].
  rewrite Hst. simpl. destruct s; [done|done|].
  assert (state (stack w' t) = TaskFailed) as Hfail by (by rewrite Hst).
  destruct (after_failed_add _ _ _ _ Hadd Hfail Hafter) as (_ & Hth).
  destruct (port (stack w' t)).
  - destruct Hth as [[Hr _]|[Hr _]]; rewrite Hr in Hpc; done.
  - rewrite Hth in Hpc. done.
Qed.

(** X4: adding a port and then removing the handle that was returned puts
    [open_ports_] back as it was, and [num_ports()] with it: one more after
    the add, the old count after the remove. *)
Theorem add_then_remove_restores (t1 t2 : TaskId) (c : Call) (p : BasicPort)
    (w : World) (th1 : Thread) (w1 : World) (th2 : Thread) (w2 : World) :
  is_add c →
  tasks_ (loop w) = [] →
  p ∉ open_ports_ (loop w) →
  call_alone t1 c w = Ok th1 w1 →
  pc th1 = Returned (RetHandle (Some p)) →
  call_alone t2 (RemovePort (Some p)) w1 = Ok th2 w2 →
  num_ports (loop w1) = S (num_ports (loop w)) ∧
  open_ports_ (loop w2) = open_ports_ (loop w) ∧
  num_ports (loop w2) = num_ports (loop w).
Proof.
  intros Hadd Hq Hfresh Hcall1 Hpc Hcall2.
  pose proof (add_call_returned_port _ _ _ _ _ _ Hadd Hq Hcall1 Hpc) as Hs.
  destruct (add_call_succeeded _ _ _ _ _ Hadd Hq Hcall1 Hs)
    as (p' & Hopen & _ & Hq1 & _ & Hpc' & _).
  rewrite Hpc in Hpc'. injection Hpc' as <-.
  apply call_alone_Ok in Hcall2 as (e & s & wh & _ & _ & Hf & -> & _);
    [|done].
  simpl in Hf. apply remove_port_Ok in Hf as (_ & _ & _ & _ & p0 & Hp0 & Ho & _).
  simpl in Hp0. destruct (decide (t2 = t2)); [|done].
  simpl in Hp0. injection Hp0 as <-. simpl in Ho.
  rewrite answered_loop.
  assert (open_ports_ (loop wh) = open_ports_ (loop w)) as Hback.
  { by rewrite Ho, Hopen, list_erase_app_last. }
  unfold num_ports. rewrite Hback, Hopen, length_app. simpl.
  split; [lia|]. done.
Qed.

(** X7: [add_udp_sender] that succeeds publishes the sender port itself
    as the writer, in the task and, when the caller passed a place for it,
    in that place; with a null [writer] nothing is stored. *)
Theorem sender_writer_published (t : TaskId) (config : UdpSenderConfig)
    (writer : option (option IWriter)) (w : World) (th : Thread)
    (w' : World) :
  tasks_ (loop w) = [] →
  call_alone t (AddUdpSender config writer) w = Ok th w' →
  state (stack w' t) = TaskSucceeded →
  ∃ p,
    pc th = Returned (RetHandle (Some p)) ∧
    port_writer (stack w' t) = Some (SenderPortWriter p) ∧
    writer_out th =
      match writer with
      | Some _ => Some (Some (SenderPortWriter p))
      | None => None
      end.
Proof.
  intros Hq Hcall Hs.
  destruct (add_call_succeeded t (AddUdpSender config writer) _ _ _
              I Hq Hcall Hs) as (p & _ & _ & _ & _ & Hpc & Hw & Hpw).
  exists p. split; [done|]. split; [by apply Hpw|]. done.
Qed.

Lemma loop_after_single l t :
  tasks_ l = [] → set_tasks [] (set_tasks (tasks_ l ++ [t]) l) = l.
Proof. destruct l. simpl. by intros ->. Qed.

(** X5: [resolve_endpoint_address] when the resolver answers at once: the
    call returns what the resolver stored in [success], the request is as
    the resolver left it, and the loop object and the resolver's queue are
    as before the call. *)
Theorem resolve_answered_at_once (t : TaskId) (uri : EndpointURI)
    (a : SocketAddr) (w : World) (r : ResolverRequest) (e' : Env) :
  started_ (loop w) = true →
  fst (uv_async_send TaskSem (env w)) = 0 →
  tasks_ (loop w) = [] →
  async_resolve
    {| endpoint_uri := uri; resolved_address := a; success := false |}
    (snd (uv_async_send TaskSem (env w))) = ((false, r), e') →
  ∃ th w',
    call_alone t (ResolveEndpointAddress uri a) w = Ok th w' ∧
    pc th = Returned (RetBool (success r)) ∧
    resolve_req (stack w' t) = r ∧
    state (stack w' t) = (if success r then TaskSucceeded else TaskFailed) ∧
    loop w' = loop w ∧ resolving w' = resolving w ∧ env w' = e'.
Proof.
  intros Hst Herr Hq Hres.
  rewrite call_alone_eq by done. simpl.
  unfold resolve_endpoint_address_, bind at 1, get_task. simpl.
  destruct (decide (t = t)); [|done]. simpl.
  unfold bind at 1, extern. simpl. rewrite Hres.
  run_handler. destruct (decide (t = t)); [|done].
  rewrite (loop_after_single _ _ Hq).
  destruct (success r) eqn:Hs; unfold ret;
    unfold run_task_wait, after_run_task, bind, get_task, ret, answered;
    simpl; destruct (decide (t = t)); try done; simpl;
    eexists _, _; (split; [reflexivity|]); simpl;
    destruct (decide (t = t)); try done; simpl; rewrite ?Hs;
    repeat split; try done.
Qed.

(** X6: [resolve_endpoint_address] when the resolver queues the request:
    the caller stays in [run_task_] with its task pending and in the
    resolver's queue, and nothing is broadcast; when the resolver completes
    the request, with either outcome, the caller wakes up and returns that
    outcome, and the address the resolver stored is in the request. *)
Theorem resolve_answered_later (t : TaskId) (uri : EndpointURI)
    (a : SocketAddr) (w : World) (r : ResolverRequest) (e' : Env) :
  started_ (loop w) = true →
  fst (uv_async_send TaskSem (env w)) = 0 →
  tasks_ (loop w) = [] →
  async_resolve
    {| endpoint_uri := uri; resolved_address := a; success := false |}
    (snd (uv_async_send TaskSem (env w))) = ((true, r), e') →
  ∃ w',
    call_alone t (ResolveEndpointAddress uri a) w =
      Ok (parked (ResolveEndpointAddress uri a)) w' ∧
    state (stack w' t) = TaskPending ∧
    resolving w' = resolving w ++ [t] ∧
    loop w' = loop w ∧
    trace w' = trace w ++
      [EvUvAsyncSend TaskSem; EvHandler t F_resolve_endpoint_address;
       EvAsyncResolve t true; EvTaskState t TaskPending TaskPending] ∧
    ∀ ok b, ∃ w'',
      resolver_completes t ok b w' = Ok tt w'' ∧
      (t ∉ resolving w'') ∧
      resolved_address (resolve_req (stack w'' t)) = b ∧
      trace w'' = trace w' ++
        [EvTaskState t TaskPending
           (if ok then TaskSucceeded else TaskFailed);
         EvTaskCondBroadcast] ∧
      ∃ th, resume t (parked (ResolveEndpointAddress uri a)) w'' = Ok th w'' ∧
            pc th = Returned (RetBool ok).
Proof.
  intros Hst Herr Hq Hres.
  rewrite call_alone_eq by done. simpl.
  unfold resolve_endpoint_address_, bind at 1, get_task. simpl.
  destruct (decide (t = t)); [|done]. simpl.
  unfold bind at 1, extern. simpl. rewrite Hres.
  run_handler. destruct (decide (t = t)); [|done].
  rewrite (loop_after_single _ _ Hq).
  unfold run_task_wait, bind, get_task, ret, answered. simpl.
  destruct (decide (t = t)); [|done]. simpl.
  eexists. split; [reflexivity|]. simpl.
  destruct (decide (t = t)); [|done]. simpl.
  split; [done|]. split; [done|]. split; [done|].
  split; [by rewrite <- !(assoc_L (++))|].
  intros ok b.
  unfold resolver_completes, handle_resolved, assign_state, modify_task,
    modify_resolving, bind, get_task, set_task, emit, resume,
    run_task_wait, after_run_task, bind, get_task, ret. simpl.
  rewrite ?decide_True by done. simpl.
  eexists. split; [reflexivity|]. simpl.
  rewrite ?decide_True by done. simpl.
  split; [apply list_erase_not_in|]. split; [done|].
  split; [by rewrite <- !(assoc_L (++))|].
  destruct ok; simpl; eexists; (split; [reflexivity|]); simpl;
    rewrite ?decide_True by done; done.
Qed.

(** *** The queue and its wakeups *)

(** X8: whatever the threads did since the loop was quiet, the queue
    holds no task twice, and a task that is in the queue or with the
    resolver is pending and belongs to a thread that is still parked in
    [run_task_], so that the pointer the loop thread holds is to a live
    task. *)
Theorem queued_task_is_live (s0 s : System) (t : TaskId) :
  quiet s0 →
  steps s0 s →
  t ∈ tasks_ (loop (world s)) ∨ t ∈ resolving (world s) →
  NoDup (tasks_ (loop (world s))) ∧
  state (stack (world s) t) = TaskPending ∧
  ∃ th, threads s t = Some th ∧ pc th = InRunTask.
Proof.
  intros Hq Hsteps Hin.
  pose proof (steps_inv _ _ (quiet_inv _ Hq) Hsteps) as Hinv.
  split; [apply Hinv|].
  destruct Hin as [Hin|Hin].
  - pose proof (in_queue_queued _ _ Hinv Hin) as (_ & _ & Hst & _).
    split; [done|].
    destruct Hinv as [_ I2]. specialize (I2 t). unfold thread_inv in I2.
    destruct (threads s t) as [th|].
    + exists th. split; [done|].
      destruct (pc th); [done|destruct I2 as (? & _); done..].
    + destruct I2 as (? & _); done.
  - destruct (in_resolver_waiting _ _ Hinv Hin) as ((_ & _ & Hst & _) & Hth).
    done.
Qed.

Lemma process_tasks_empty w :
  tasks_ (loop w) = [] → process_tasks_ w = Ok tt w.
Proof.
  intros Hq. unfold process_tasks_, bind at 1, get_loop. rewrite Hq.
  simpl. unfold bind, get_loop. by rewrite Hq.
Qed.

(** X9: a wakeup that finds nothing to do does nothing.  After a drain
    that returned, the queue is empty, and the callback of another task
    wakeup, such as one coalesced with the first, leaves the world as it
    is: no handler runs and nothing is broadcast. *)
Theorem second_wakeup_is_idle (w w' : World) :
  NoDup (tasks_ (loop w)) →
  task_sem_cb_ w = Ok tt w' →
  tasks_ (loop w') = [] ∧ task_sem_cb_ w' = Ok tt w'.
Proof.
  intros Hnd Hcb. unfold task_sem_cb_ in *.
  pose proof (process_tasks_runs w Hnd) as Hruns.
  rewrite Hcb in Hruns. destruct Hruns as (Hq & _).
  split; [done|]. by apply process_tasks_empty.
Qed.

(** X10: [close_sems_] closes a wakeup at most once: whatever the flags
    were, both are clear afterwards, and a second [close_sems_] calls
    [uv_close] on nothing and changes nothing. *)
Theorem close_sems_once (w : World) :
  ∃ w1, close_sems_ w = Ok tt w1 ∧
    task_sem_initialized_ (loop w1) = false ∧
    stop_sem_initialized_ (loop w1) = false ∧
    close_sems_ w1 = Ok tt w1.
Proof.
  destruct (close_sems_Ok w) as (w1 & H1 & Hl & _).
  exists w1. split; [done|].
  assert (task_sem_initialized_ (loop w1) = false) as Ht by (by rewrite Hl).
  assert (stop_sem_initialized_ (loop w1) = false) as Hs by (by rewrite Hl).
  split; [done|]. split; [done|].
  unfold close_sems_, bind at 1, get_loop. rewrite Ht.
  unfold bind at 1, ret at 1. unfold bind, get_loop. by rewrite Hs.
Qed.

(** *** Construction and destruction *)

(** The constructor always returns, with no port. *)
Lemma ctor_Ok w :
  ∃ w', EventLoop_ctor w = Ok tt w' ∧
    open_ports_ (loop w') = [] ∧ closing_ports_ (loop w') = [].
Proof.
  unfold EventLoop_ctor, bind, set_loop, extern, emit, modify_loop, bind,
    get_loop, set_loop, ret. simpl.
  destruct (uv_loop_init (env w)) as [err1 e1]. simpl.
  destruct (decide (err1 ≠ 0)); simpl; [by eexists|].
  destruct (uv_async_init StopSem e1) as [err2 e2]. simpl.
  destruct (decide (err2 ≠ 0)); simpl; [by eexists|].
  destruct (uv_async_init TaskSem e2) as [err3 e3]. simpl.
  destruct (decide (err3 ≠ 0)); simpl; [by eexists|].
  destruct (thread_start e3) as [ok e4]. simpl. by eexists.
Qed.

(** X1: the constructor always returns, with no task and no port, and
    with flags that say how far it got: the reactor is initialized exactly
    when [uv_loop_init] returned 0, a wakeup only if the step before it
    succeeded, and the loop is valid only if both wakeups are
    initialized. *)
Theorem ctor_flags (w : World) :
  ∃ w', EventLoop_ctor w = Ok tt w' ∧
    tasks_ (loop w') = [] ∧
    open_ports_ (loop w') = [] ∧
    closing_ports_ (loop w') = [] ∧
    stack w' = stack w ∧
    loop_initialized_ (loop w') =
      bool_decide (fst (uv_loop_init (env w)) = 0) ∧
    (stop_sem_initialized_ (loop w') = true →
     loop_initialized_ (loop w') = true) ∧
    (task_sem_initialized_ (loop w') = true →
     stop_sem_initialized_ (loop w') = true) ∧
    (valid (loop w') = true → task_sem_initialized_ (loop w') = true).
Proof.
  unfold EventLoop_ctor, bind, set_loop, extern, emit, modify_loop, bind,
    get_loop, set_loop, ret, valid. simpl.
  destruct (uv_loop_init (env w)) as [err1 e1]. simpl.
  destruct (decide (err1 ≠ 0)) as [H1|H1]; simpl.
  { eexists. split; [done|]. simpl.
    rewrite bool_decide_eq_false_2 by done. repeat split; done. }
  destruct (uv_async_init StopSem e1) as [err2 e2]. simpl.
  rewrite bool_decide_eq_true_2 by lia.
  destruct (decide (err2 ≠ 0)) as [H2|H2]; simpl.
  { eexists. split; [done|]. simpl. repeat split; done. }
  destruct (uv_async_init TaskSem e2) as [err3 e3]. simpl.
  destruct (decide (err3 ≠ 0)) as [H3|H3]; simpl.
  { eexists. split; [done|]. simpl. repeat split; done. }
  destruct (thread_start e3) as [ok e4]. simpl.
  eexists. split; [done|]. simpl. repeat split; done.
Qed.

Lemma roc_panic_if_Ok b m w w' :
  roc_panic_if b m w = Ok tt w' → b = false ∧ w' = w.
Proof. destruct b; [discriminate|]. by intros [= <-]. Qed.

(** X11: the destructor returns only from a loop that has no port left,
    open or closing, whose wakeups are closed and whose thread is not
    joinable; in any other case it has panicked. *)
Theorem dtor_returns_clean (w w' : World) :
  EventLoop_dtor w = Ok tt w' →
  open_ports_ (loop w') = [] ∧
  closing_ports_ (loop w') = [] ∧
  task_sem_initialized_ (loop w') = false ∧
  stop_sem_initialized_ (loop w') = false ∧
  thread_joinable (env w') = false.
Proof.
  unfold EventLoop_dtor. intros H.
  apply bind_Ok in H as (l0 & w0 & _ & H).
  apply bind_Ok in H as ([] & w1 & _ & H).
  apply bind_Ok in H as (l1 & w2 & _ & H).
  apply bind_Ok in H as ([] & w3 & _ & H).
  apply bind_Ok in H as (j & w4 & Hj & H).
  apply bind_Ok in H as ([] & w5 & H5 & H).
  apply bind_Ok in H as (l & w6 & Hl & H).
  apply bind_Ok in H as ([] & w7 & H7 & H).
  apply bind_Ok in H as ([] & w8 & H8 & H).
  apply bind_Ok in H as ([] & w9 & H9 & H).
  injection Hj as <- <-. injection Hl as <- <-.
  apply roc_panic_if_Ok in H5 as [H5 ->].
  apply roc_panic_if_Ok in H7 as [H7 ->].
  apply roc_panic_if_Ok in H8 as [H8 ->].
  apply roc_panic_if_Ok in H9 as [H9 ->].
  apply roc_panic_if_Ok in H as [H ->].
  apply bool_decide_eq_false in H7. apply bool_decide_eq_false in H8.
  split; [destruct (open_ports_ (loop w3)); [done|simpl in H7; lia]|].
  split; [destruct (closing_ports_ (loop w3)); [done|simpl in H8; lia]|].
  done.
Qed.

(** The destructor of a loop that was never started and has no ports can
    only panic over the reactor or the thread. *)
Lemma dtor_not_started_outcome w :
  started_ (loop w) = false →
  open_ports_ (loop w) = [] → closing_ports_ (loop w) = [] →
  match EventLoop_dtor w with
  | Ok _ w' =>
      task_sem_initialized_ (loop w') = false ∧
      stop_sem_initialized_ (loop w') = false
  | Aborted why _ =>
      why = RocPanic LoopCloseFailed ∨ why = RocPanic DtorJoinable
  end.
Proof.
  intros Hs Ho Hc. unfold EventLoop_dtor, bind at 1, get_loop. rewrite Hs.
  unfold bind at 1.
  destruct (close_sems_Ok w) as (w1 & -> & Hl & _ & _ & Ht).
  unfold bind at 1, get_loop. rewrite Hl. simpl. rewrite Hs.
  unfold run, roc_panic_if, roc_panic, bind, extern, emit, observe, get_loop,
    ret. simpl.
  assert (open_ports_ (loop w1) = []) as Ho1 by (by rewrite Hl).
  assert (closing_ports_ (loop w1) = []) as Hc1 by (by rewrite Hl).
  assert (task_sem_initialized_ (loop w1) = false) as Ht1 by (by rewrite Hl).
  assert (stop_sem_initialized_ (loop w1) = false) as Hs1 by (by rewrite Hl).
  destruct (loop_initialized_ (loop w)); simpl.
  - destruct (uv_run (env w1)) as [e1 v1]. simpl.
    destruct (uv_loop_close v1) as [e2 v2]. simpl.
    repeat case_match; simplify_eq/=; eauto; exfalso;
      repeat match goal with H : bool_decide _ = true |- _ =>
        apply bool_decide_eq_true in H end;
      rewrite ?Ho1, ?Hc1 in *; simpl in *; congruence.
  - repeat case_match; simplify_eq/=; eauto; exfalso;
      repeat match goal with H : bool_decide _ = true |- _ =>
        apply bool_decide_eq_true in H end;
      rewrite ?Ho1, ?Hc1 in *; simpl in *; congruence.
Qed.

(** X12: a loop whose construction failed can be destroyed: the destructor
    finds no port and no open wakeup to complain about, and can only panic
    if [uv_loop_close] fails or the thread is joinable. *)
Theorem failed_ctor_teardown (w w1 : World) :
  EventLoop_ctor w = Ok tt w1 →
  valid (loop w1) = false →
  match EventLoop_dtor w1 with
  | Ok _ w2 =>
      task_sem_initialized_ (loop w2) = false ∧
      stop_sem_initialized_ (loop w2) = false
  | Aborted why _ =>
      why = RocPanic LoopCloseFailed ∨ why = RocPanic DtorJoinable
  end.
Proof.
  intros Hctor Hv.
  destruct (ctor_Ok w) as (w' & Hc & Ho & Hcl).
  rewrite Hctor in Hc. injection Hc as <-.
  exact (dtor_not_started_outcome w1 Hv Ho Hcl).
Qed.

(** A thread parked in [wait_port_closed_], and the completions. *)
Lemma handle_closed_closing p w :
  ∃ w', handle_closed p w = Ok tt w' ∧
    closing_ports_ (loop w') = list_erase (closing_ports_ (loop w)) p ∧
    open_ports_ (loop w') = open_ports_ (loop w).
Proof.
  destruct (decide (p ∈ closing_ports_ (loop w))) as [Hin|Hnin].
  - eexists. split; [by apply handle_closed_member|]. done.
  - exists w. split; [by apply handle_closed_absent|].
    by rewrite list_erase_absent.
Qed.

(** X14: a caller that waits for a port to close is released by the
    completion of that port and by no other: after [handle_closed] of
    another port it is still parked, after [handle_closed] of its own it
    returns. *)
Theorem waiter_released_by_own_port (t : TaskId) (p q : BasicPort)
    (r : RetVal) (th : Thread) (w : World) :
  pc th = InWaitClosed q r →
  q ∈ closing_ports_ (loop w) →
  p ≠ q →
  (∃ w', handle_closed p w = Ok tt w' ∧
     q ∈ closing_ports_ (loop w') ∧
     resume t th w' = Ok th w') ∧
  (∃ w' th', handle_closed q w = Ok tt w' ∧
     EvCloseCondBroadcast ∈ trace w' ∧
     resume t th w' = Ok th' w' ∧
     pc th' = Returned r).
Proof.
  intros Hpc Hq Hne. split.
  - destruct (handle_closed_closing p w) as (w' & H1 & Hcl & _).
    exists w'. split; [done|].
    assert (q ∈ closing_ports_ (loop w')) as Hq'.
    { rewrite Hcl. apply list_erase_in. split; [done|]. congruence. }
    split; [done|].
    destruct (resume_in_wait_closed t _ _ _ w' Hpc) as (th' & -> & _ & Hs & _).
    by rewrite (Hs Hq').
  - destruct (handle_closed_closing q w) as (w' & H1 & Hcl & _).
    destruct (resume_in_wait_closed t _ _ _ w' Hpc) as (th' & Hr & _ & _ & Hs).
    exists w', th'. split; [done|]. split.
    { rewrite (handle_closed_member _ _ Hq) in H1. injection H1 as <-.
      simpl. apply elem_of_app. right. by apply list_elem_of_singleton. }
    split; [done|]. apply Hs. rewrite Hcl. apply list_erase_not_in.
Qed.

(** *** The two lists of ports *)

Lemma async_close_ports_loop_empties fuel : ∀ w w',
  async_close_ports_loop fuel w = Ok tt w' → open_ports_ (loop w') = [].
Proof.
  induction fuel as [|fuel IH]; intros w w'; simpl;
    unfold bind at 1, get_loop;
    (destruct (list_front (open_ports_ (loop w))) as [p|] eqn:Hf;
       [|intros [= <-]; by destruct (open_ports_ (loop w))]);
    [discriminate|].
  intros H. inv_ok. eauto.
Qed.

Lemma ports_disjoint_add_open l p :
  ports_disjoint l → p ∉ closing_ports_ l →
  ports_disjoint (set_open_ports (open_ports_ l ++ [p]) l).
Proof.
  intros Hd Hp q. simpl.
  intros [?|Hq%list_elem_of_singleton]%elem_of_app; [by apply Hd|].
  by subst q.
Qed.

Lemma ports_disjoint_add_closing l p :
  ports_disjoint l → p ∉ open_ports_ l →
  ports_disjoint (set_closing_ports (closing_ports_ l ++ [p]) l).
Proof.
  intros Hd Hp q. simpl. intros Hq.
  intros [?|Hq'%list_elem_of_singleton]%elem_of_app; [by apply (Hd q)|].
  by subst q.
Qed.

(** X13: a port is never in [open_ports_] and in [closing_ports_] at
    once.  If the two lists are disjoint, they are disjoint after any
    handler that returns (for the add handlers, as long as the allocator
    hands out a fresh object), after [handle_closed], and after
    [async_close_ports_], which leaves no open port at all. *)
Theorem ports_stay_disjoint (w : World) :
  ports_disjoint (loop w) →
  fresh_at w →
  (∀ f t s w', call_func f t w = Ok s w' → ports_disjoint (loop w')) ∧
  (∀ p w', handle_closed p w = Ok tt w' → ports_disjoint (loop w')) ∧
  (∀ w', async_close_ports_ w = Ok tt w' →
         open_ports_ (loop w') = [] ∧ ports_disjoint (loop w')).
Proof.
  intros Hd Hfresh. split; [|split].
  - intros f t s w'. destruct f; simpl.
    + unfold add_udp_receiver_, bind at 1, get_task.
      unfold bind at 1, extern.
      destruct (new_receiver _ _ (env w)) as [[rp|] e1] eqn:Hnew;
        [|run_handler; by intros [= <- <-]].
      destruct (Hfresh rp e1) as [Ho Hc]; [left; eauto|].
      run_handler.
      destruct (port_open rp e1) as [[] e2]; simpl.
      * intros [= <- <-]. simpl. by apply ports_disjoint_add_open.
      * destruct (port_async_close rp e2) as [[] e3]; simpl;
          intros [= <- <-]; simpl; [|done].
        by apply ports_disjoint_add_closing.
    + unfold add_udp_sender_, bind at 1, get_task.
      unfold bind at 1, extern.
      destruct (new_sender _ (env w)) as [[sp|] e1] eqn:Hnew;
        [|run_handler; by intros [= <- <-]].
      destruct (Hfresh sp e1) as [Ho Hc]; [right; eauto|].
      run_handler.
      destruct (port_open sp e1) as [[] e2]; simpl.
      * intros [= <- <-]. simpl. by apply ports_disjoint_add_open.
      * destruct (port_async_close sp e2) as [[] e3]; simpl;
          intros [= <- <-]; simpl; [|done].
        by apply ports_disjoint_add_closing.
    + intros (_ & _ & _ & _ & p & _ & Ho & Hc)%remove_port_Ok.
      intros q. rewrite Ho, Hc. intros [Hq Hne]%list_erase_in.
      destruct (fst _); [|by apply Hd].
      intros [?|Hq'%list_elem_of_singleton]%elem_of_app;
        [by apply (Hd q)|done].
    + destruct (resolve_endpoint_address_Ok t w) as (s1 & w1 & -> & _ & Hl & _).
      intros [= <- <-]. by rewrite Hl.
  - intros p w' Hcl.
    destruct (handle_closed_closing p w) as (w1 & H1 & Hc & Ho).
    rewrite H1 in Hcl. injection Hcl as <-.
    intros q. rewrite Ho, Hc. intros Hq [Hin _]%list_erase_in.
    by apply (Hd q).
  - intros w' H. unfold async_close_ports_, bind, get_loop in H.
    apply async_close_ports_loop_empties in H.
    split; [done|]. intros q. rewrite H. by intros ?%elem_of_nil.
Qed.

(** *** Submission and shutdown *)

(** X15: a task is handled after the tasks that were queued before it:
    when a call enters with tasks waiting and the loop thread then drains
    the queue, the handlers of the waiting tasks run first, in their
    order, and the handler of the new task last. *)
Theorem submitted_task_runs_last (t : TaskId) (c : Call) (w : World)
    (th : Thread) (w1 w2 : World) :
  NoDup (tasks_ (loop w)) →
  t ∉ tasks_ (loop w) →
  enter t c w = Ok th w1 →
  process_tasks_ w1 = Ok tt w2 →
  tasks_ (loop w1) = tasks_ (loop w) ++ [t] ∧
  tasks_ (loop w2) = [] ∧
  ∃ evs, trace w2 = trace w1 ++ evs ∧
    handler_runs evs = tasks_ (loop w) ++ [t].
Proof.
  intros Hnd Ht (_ & _ & -> & ->)%enter_Ok Hproc.
  split; [done|].
  assert (NoDup (tasks_ (loop (entered t c
            (snd (uv_async_send TaskSem (env w))) w)))) as Hnd1.
  { simpl. apply NoDup_app. split; [done|]. split; [|apply NoDup_singleton].
    intros u Hu ->%list_elem_of_singleton. done. }
  pose proof (process_tasks_runs _ Hnd1) as Hruns.
  rewrite Hproc in Hruns. done.
Qed.

(** A drain that runs only resolve handlers returns, and leaves the two
    lists of ports as they were. *)
Lemma drain_resolves n w r :
  drain n w r → NoDup (tasks_ (loop w)) →
  (∀ t, t ∈ tasks_ (loop w) →
        func (stack w t) = F_resolve_endpoint_address) →
  ∃ n' w', r = Ok n' w' ∧
    open_ports_ (loop w') = open_ports_ (loop w) ∧
    closing_ports_ (loop w') = closing_ports_ (loop w).
Proof.
  induction 1 as [n w Hq|n w t q why w2 Hq Hcall|n w t q s w2 r Hq Hcall _ IH];
    intros Hnd Hfun.
  - by exists n, w.
  - apply call_func_Aborted in Hcall as (_ & Hf & _).
    rewrite (Hfun t) in Hf; [done|]. rewrite Hq. apply elem_of_cons. by left.
  - rewrite Hq in Hnd, Hfun. apply NoDup_cons in Hnd as [Ht Hnd].
    pose proof Hcall as Hf. apply call_func_Ok in Hf as (Hf & _).
    assert (tasks_ (loop (stored w2 t s)) = q) as Hq2.
    { simpl. by rewrite (hf_tasks _ _ _ Hf). }
    rewrite Hq2 in IH.
    destruct (IH Hnd) as (n' & w' & -> & Ho & Hc).
    { intros u Hu. simpl. destruct (decide (u = t)) as [->|Hne]; [done|].
      rewrite (hf_others _ _ _ Hf u Hne). simpl.
      apply Hfun, elem_of_cons. by right. }
    exists n', w'. split; [done|]. rewrite Ho, Hc. simpl.
    rewrite (Hfun t) in Hcall by (apply elem_of_cons; by left).
    simpl in Hcall.
    destruct (resolve_endpoint_address_Ok t (popped w t q))
      as (s1 & w1 & Heq & _ & Hl & _).
    rewrite Heq in Hcall. injection Hcall as <- <-.
    by rewrite Hl.
Qed.

Lemma closing_of_open closes p : p ∈ closing_of closes → p ∈ closes.*1.
Proof.
  unfold closing_of. intros ([q a] & -> & [_ Hin]%list_elem_of_filter)%list_elem_of_fmap.
  by apply (list_elem_of_fmap_2 fst) in Hin.
Qed.

Lemma closing_of_NoDup closes : NoDup closes.*1 → NoDup (closing_of closes).
Proof.
  intros Hnd. apply (sublist_NoDup _ _ Hnd). unfold closing_of.
  apply fmap_sublist, sublist_filter.
Qed.

(** X16: the handler of the stop wakeup, when the tasks still queued (if
    any) are resolve tasks, returns with no open port, so that
    [num_ports()] is 0, and with an empty queue.  [closing_ports_] still
    holds no port twice: it has gained only ports that were open, and has
    lost none. *)
Theorem stop_leaves_no_open_port (w : World) :
  NoDup (open_ports_ (loop w)) →
  NoDup (closing_ports_ (loop w)) →
  ports_disjoint (loop w) →
  NoDup (tasks_ (loop w)) →
  (∀ t, t ∈ tasks_ (loop w) →
        func (stack w t) = F_resolve_endpoint_address) →
  ∃ w',
    stop_sem_cb_ w = Ok tt w' ∧
    open_ports_ (loop w') = [] ∧ num_ports (loop w') = 0 ∧
    tasks_ (loop w') = [] ∧
    NoDup (closing_ports_ (loop w')) ∧
    (∀ p, p ∈ closing_ports_ (loop w') →
          p ∈ closing_ports_ (loop w) ∨ p ∈ open_ports_ (loop w)) ∧
    (∀ p, p ∈ closing_ports_ (loop w) → p ∈ closing_ports_ (loop w')).
Proof.
  intros Hndo Hndc Hdis Hndt Hfun. unfold num_ports.
  destruct (async_close_ports_loop_Ok (length (open_ports_ (loop w))) w Hndo)
    as (closes & w1 & H1 & Hc & Hl1 & Hs1 & _ & _); [done|].
  destruct (close_sems_Ok w1) as (w2 & H2 & Hl2 & Hs2 & _).
  assert (stop_sem_cb_ w = process_tasks_ w2) as ->.
  { unfold stop_sem_cb_, async_close_ports_, bind, get_loop.
    by rewrite H1, H2. }
  assert (tasks_ (loop w2) = tasks_ (loop w)) as Hq2 by (by rewrite Hl2, Hl1).
  assert (NoDup (tasks_ (loop w2))) as Hnd2 by (by rewrite Hq2).
  destruct (process_tasks_drain w2 Hnd2) as (r & Hdrain & ->).
  destruct (drain_resolves _ _ _ Hdrain Hnd2) as (n & wd & -> & Ho & Hcl).
  { intros t. rewrite Hq2, Hs2, Hs1. apply Hfun. }
  pose proof (drain_Ok _ _ _ Hdrain Hnd2 _ _ eq_refl)
    as [D1 _ _ _ _ _ _ _ _ _].
  assert (open_ports_ (loop wd) = []) as Ho'.
  { by rewrite Ho, Hl2, Hl1. }
  assert (closing_ports_ (loop wd) =
            closing_ports_ (loop w) ++ closing_of closes) as Hcl'.
  { by rewrite Hcl, Hl2, Hl1. }
  assert (∃ w', (if n then
                   Ok tt {| loop := loop wd; stack := stack wd;
                            resolving := resolving wd; env := env wd;
                            trace := trace wd ++ [EvTaskCondBroadcast] |}
                 else Ok tt wd) = Ok tt w' ∧ loop w' = loop wd)
    as (w' & Heq & Hl').
  { destruct n; eexists; split; done. }
  exists w'. split; [by destruct n|]. rewrite Hl', Ho', D1, Hcl'.
  split; [done|]. split; [done|]. split; [done|]. split; [|split].
  - apply NoDup_app. split; [done|]. split.
    + intros p Hp Hp'%closing_of_open. rewrite Hc in Hp'.
      by apply (Hdis p).
    + apply closing_of_NoDup. by rewrite Hc.
  - intros p [?|Hp%closing_of_open]%elem_of_app; [by left|].
    right. by rewrite <- Hc.
  - intros p Hp. apply elem_of_app. by left.
Qed.

End Model.

(** ** The model at work

    The properties above on the small outside world [Sim], and the inputs
    on which the code departs from what is said of it. *)

(** C1: [remove_port] of a handle that was never a port of the loop, on a
    loop with no ports.  If [List::remove] lets a non-member pass, the
    handler closes the port all the same and answers [TaskSucceeded], and
    the caller goes on to wait for the close; if it does not, the process
    dies in [List::remove] with the task still pending.  Either way the
    task is never in the failed state that [remove_port] tests for, and the
    panic "unknown port" is not the one raised. *)
Theorem remove_unknown_port_not_failed :
  let w := @world_of Sim (running_loop [] []) sim_ok in
  let lax := @call_alone Sim (sim_externals false) 0 (RemovePort (Some 7)) w in
  let strict := @call_alone Sim (sim_externals true) 0 (RemovePort (Some 7)) w in
  (7 ∉ open_ports_ (loop w)) ∧
  (res_value lax =
     Some {| call := RemovePort (Some 7); pc := InWaitClosed 7 RetVoid;
             writer_out := None |} ∧
   state (stack (res_world lax) 0) = TaskSucceeded ∧
   closing_ports_ (loop (res_world lax)) = [7]) ∧
  (res_abort strict = Some (RocPanic ListNotMember) ∧
   state (stack (res_world strict) 0) = TaskPending).
Proof.
  intros w lax strict. split; [apply not_elem_of_nil|].
  repeat split; vm_compute; reflexivity.
Qed.

Lemma add_port_succeeds_witness :
  let w := @world_of Sim (running_loop [7] [8]) sim_ok in
  let e := snd (@uv_async_send Sim (sim_externals true) TaskSem (env w)) in
  let e1 := snd (sim_new_port sim_ok) in
  let rc := AddUdpReceiver {| rc_bind_address := 9 |} (ClientWriter 1) in
  let sc := AddUdpSender {| sc_bind_address := 9 |} (Some None) in
  (is_add rc ∧ valid (loop w) = true ∧
   fst (@uv_async_send Sim (sim_externals true) TaskSem (env w)) = 0 ∧
   tasks_ (loop w) = [] ∧
   @allocate Sim (sim_externals true) rc e = (Some 1, e1) ∧
   @port_open Sim (sim_externals true) 1 e1 = (true, e1) ∧
   ∃ th w',
     @call_alone Sim (sim_externals true) 0 rc w = Ok th w' ∧
     state (stack w' 0) = TaskSucceeded ∧
     EvTaskState 0 TaskPending TaskSucceeded ∈ trace w' ∧
     bound_address (stack w' 0) =
       @port_address Sim (sim_externals true) 1 (env w') ∧
     env w' = e1 ∧
     open_ports_ (loop w') = open_ports_ (loop w) ++ [1] ∧
     closing_ports_ (loop w') = closing_ports_ (loop w) ∧
     pc th = Returned (RetHandle (Some 1)) ∧
     num_ports (loop w') = S (num_ports (loop w))) ∧
  (is_add sc ∧
   @allocate Sim (sim_externals true) sc e = (Some 1, e1) ∧
   ∃ th w',
     @call_alone Sim (sim_externals true) 0 sc w = Ok th w' ∧
     state (stack w' 0) = TaskSucceeded ∧
     EvTaskState 0 TaskPending TaskSucceeded ∈ trace w' ∧
     bound_address (stack w' 0) =
       @port_address Sim (sim_externals true) 1 (env w') ∧
     env w' = e1 ∧
     open_ports_ (loop w') = open_ports_ (loop w) ++ [1] ∧
     closing_ports_ (loop w') = closing_ports_ (loop w) ∧
     pc th = Returned (RetHandle (Some 1)) ∧
     num_ports (loop w') = S (num_ports (loop w))).
Proof.
  intros w e e1 rc sc. split.
  - split; [exact I|]. split; [reflexivity|]. split; [reflexivity|].
    split; [reflexivity|]. split; [reflexivity|]. split; [reflexivity|].
    exact (@add_port_succeeds Sim (sim_externals true) 0 rc w 1 e1 e1
             I eq_refl eq_refl eq_refl eq_refl eq_refl).
  - split; [exact I|]. split; [reflexivity|].
    exact (@add_port_succeeds Sim (sim_externals true) 0 sc w 1 e1 e1
             I eq_refl eq_refl eq_refl eq_refl eq_refl).
Defined.

(** C3, as stated, fails when [open()] fails on a port that has nothing
    to close asynchronously: the call fails and returns null with the port
    created, and the port is in [closing_ports_] neither when the handler
    returns nor when the call does. *)
Lemma failed_port_skips_closing_ports :
  let c := AddUdpReceiver {| rc_bind_address := 9 |} (ClientWriter 1) in
  let w := @world_of Sim (running_loop [] []) sim_open_fails_closed in
  let r := @call_alone Sim (sim_externals false) 0 c w in
  let h := @add_udp_receiver_ Sim (sim_externals false) 0
             (popped (entered 0 c sim_open_fails_closed w) 0 []) in
  res_value r = Some {| call := c; pc := Returned (RetHandle None);
                        writer_out := None |} ∧
  state (stack (res_world r) 0) = TaskFailed ∧
  port (stack (res_world r) 0) = Some 1 ∧
  res_value h = Some TaskFailed ∧
  closing_ports_ (loop (res_world h)) = [] ∧
  closing_ports_ (loop (res_world r)) = [] ∧
  trace (res_world r) =
    [EvUvAsyncSend TaskSem; EvHandler 0 F_add_udp_receiver;
     EvNewPort (Some 1); EvPortOpen 1 false; EvPortAsyncClose 1 false;
     EvTaskState 0 TaskPending TaskFailed; EvTaskCondBroadcast].
Proof.
  intros c w r h. repeat split; vm_compute; reflexivity.
Qed.

Lemma add_port_fails_witness :
  let c := AddUdpReceiver {| rc_bind_address := 9 |} (ClientWriter 1) in
  let w := @world_of Sim (running_loop [] []) sim_open_fails in
  let r := @call_alone Sim (sim_externals false) 0 c w in
  let th := {| call := c; pc := InWaitClosed 1 (RetHandle None);
               writer_out := None |} in
  is_add c ∧ tasks_ (loop w) = [] ∧
  r = Ok th (res_world r) ∧
  state (stack (res_world r) 0) = TaskFailed ∧
  open_ports_ (loop (res_world r)) = open_ports_ (loop w) ∧
  num_ports (loop (res_world r)) = num_ports (loop w) ∧
  closing_ports_ (loop (res_world r)) = [1].
Proof.
  intros c w r th.
  assert (Hv : res_value r = Some th) by (vm_compute; reflexivity).
  assert (Hs : state (stack (res_world r) 0) = TaskFailed)
    by (vm_compute; reflexivity).
  split; [exact I|]. split; [reflexivity|].
  split; [exact (res_value_Some _ _ Hv)|]. split; [exact Hs|].
  split; [|split]; [| |vm_compute; reflexivity].
  - exact (proj1 (@add_port_fails Sim (sim_externals false) 0 c w th
             (res_world r) I eq_refl (res_value_Some _ _ Hv) Hs)).
  - exact (proj1 (proj2 (@add_port_fails Sim (sim_externals false) 0 c w th
             (res_world r) I eq_refl (res_value_Some _ _ Hv) Hs))).
Defined.

Lemma failed_add_writes_nothing_witness :
  let c := AddUdpSender {| sc_bind_address := 9 |}
             (Some (Some (ClientWriter 4))) in
  let w := @world_of Sim (running_loop [] []) sim_open_fails in
  let r := @call_alone Sim (sim_externals false) 0 c w in
  let th := {| call := c; pc := InWaitClosed 1 (RetHandle None);
               writer_out := Some (Some (ClientWriter 4)) |} in
  is_add c ∧ tasks_ (loop w) = [] ∧
  r = Ok th (res_world r) ∧
  state (stack (res_world r) 0) = TaskFailed ∧
  writer_out th = writer_out (parked c) ∧
  receiver_config (stack (res_world r) 0) = receiver_config (task_of_call c) ∧
  sender_config (stack (res_world r) 0) = sender_config (task_of_call c) ∧
  bound_address (stack (res_world r) 0) = config_address c ∧
  ∀ v th' v', @resume Sim 0 th v = Ok th' v' →
    v' = v ∧ writer_out th' = writer_out th.
Proof.
  intros c w r th.
  assert (Hv : res_value r = Some th) by (vm_compute; reflexivity).
  assert (Hs : state (stack (res_world r) 0) = TaskFailed)
    by (vm_compute; reflexivity).
  split; [exact I|]. split; [reflexivity|].
  split; [exact (res_value_Some _ _ Hv)|]. split; [exact Hs|].
  exact (@failed_add_writes_nothing Sim (sim_externals false) 0 c w th
           (res_world r) I eq_refl (res_value_Some _ _ Hv) Hs).
Defined.

Lemma run_task_completes_once_witness :
  let c := ResolveEndpointAddress 3 0 in
  let s0 := {| world := @world_of Sim (running_loop [] []) sim_resolve_later;
               threads := λ _, None |} in
  let s1 := set_thread 0 (parked c) s0
              (res_world (@enter Sim (sim_externals false) 0 c (world s0))) in
  let s2 := {| world := res_world (@task_sem_cb_ Sim (sim_externals false)
                                     (world s1));
               threads := threads s1 |} in
  let s3 := {| world := res_world (@resolver_completes Sim 0 true 127
                                     (world s2));
               threads := threads s2 |} in
  let th := {| call := c; pc := Returned (RetBool true);
               writer_out := None |} in
  let s4 := set_thread 0 th s3
              (res_world (@resume Sim 0 (parked c) (world s3))) in
  quiet s0 ∧ @steps Sim (sim_externals false) s0 s4 ∧
  threads s4 0 = Some th ∧ pc th ≠ InRunTask ∧
  ∃ st, st ≠ TaskPending ∧
    state (stack (world s4) 0) = st ∧
    transitions 0 (trace (world s4)) = [EvTaskState 0 TaskPending st].
Proof.
  intros c s0 s1 s2 s3 th s4.
  assert (Hq : quiet s0) by (repeat split).
  assert (H1 : res_value (@enter Sim (sim_externals false) 0 c (world s0))
               = Some (parked c)) by (vm_compute; reflexivity).
  assert (H2 : res_value (@task_sem_cb_ Sim (sim_externals false) (world s1))
               = Some tt) by (vm_compute; reflexivity).
  assert (H2' : task_sem_initialized_ (loop (world s1)) = true)
    by (vm_compute; reflexivity).
  assert (H3 : res_value (@resolver_completes Sim 0 true 127 (world s2))
               = Some tt) by (vm_compute; reflexivity).
  assert (H3' : 0 ∈ resolving (world s2))
    by (apply (bool_decide_unpack (0 ∈ resolving (world s2)));
        vm_compute; exact I).
  assert (H4 : res_value (@resume Sim 0 (parked c) (world s3)) = Some th)
    by (vm_compute; reflexivity).
  assert (H4' : threads s3 0 = Some (parked c)) by (vm_compute; reflexivity).
  assert (Hsteps : @steps Sim (sim_externals false) s0 s4).
  { eapply steps_step; [eapply steps_step; [eapply steps_step;
      [eapply steps_step; [apply steps_refl|]|]|]|].
    - exact (step_enter s0 0 c _ _ eq_refl (res_value_Some _ _ H1)).
    - exact (step_task_sem s1 _ H2' (res_value_Some _ _ H2)).
    - exact (step_resolved s2 0 true 127 _ H3' (res_value_Some _ _ H3)).
    - exact (step_resume s3 0 _ _ _ H4' (res_value_Some _ _ H4)). }
  assert (Hth : threads s4 0 = Some th) by (vm_compute; reflexivity).
  assert (Hpc : pc th ≠ InRunTask) by discriminate.
  split; [exact Hq|]. split; [exact Hsteps|]. split; [exact Hth|].
  split; [exact Hpc|].
  exact (@run_task_completes_once Sim (sim_externals false) s0 s4 0 th
           Hq Hsteps Hth Hpc).
Defined.

Lemma process_tasks_fifo_witness :
  let c0 := AddUdpReceiver {| rc_bind_address := 9 |} (ClientWriter 1) in
  let c1 := ResolveEndpointAddress 3 0 in
  let w := res_world
             (bind (@enter Sim (sim_externals false) 0 c0)
                   (λ _, @enter Sim (sim_externals false) 1 c1)
                   (world_of (running_loop [] []) sim_resolve_later)) in
  tasks_ (loop w) = [0; 1] ∧
  NoDup (tasks_ (loop w)) ∧
  Forall (still_pending w) (tasks_ (loop w)) ∧
  trace (res_world (@process_tasks_ Sim (sim_externals false) w)) =
    trace w ++
    [EvHandler 0 F_add_udp_receiver; EvNewPort (Some 1); EvPortOpen 1 true;
     EvTaskState 0 TaskPending TaskSucceeded;
     EvHandler 1 F_resolve_endpoint_address; EvAsyncResolve 1 true;
     EvTaskState 1 TaskPending TaskPending; EvTaskCondBroadcast] ∧
  match @process_tasks_ Sim (sim_externals false) w with
  | Ok _ w' =>
      tasks_ (loop w') = [] ∧
      ∃ evs,
        handler_runs evs = tasks_ (loop w) ∧
        (EvTaskCondBroadcast ∉ evs) ∧
        trace w' = trace w ++ evs ++
          (if decide (Exists (λ t, still_pending w t ∧ left_pending w' t)
                        (tasks_ (loop w)))
           then [EvTaskCondBroadcast] else [])
  | Aborted why w' =>
      why ≠ OutOfFuel ∧
      ∃ evs, trace w' = trace w ++ evs ∧ (EvTaskCondBroadcast ∉ evs) ∧
        handler_runs evs `prefix_of` tasks_ (loop w)
  end.
Proof.
  intros c0 c1 w.
  assert (Hq : tasks_ (loop w) = [0; 1]) by (vm_compute; reflexivity).
  assert (Hnd : NoDup (tasks_ (loop w)))
    by (apply (bool_decide_unpack (NoDup (tasks_ (loop w))));
        vm_compute; exact I).
  assert (Hp : Forall (still_pending w) (tasks_ (loop w)))
    by (apply (bool_decide_unpack
                 (Forall (still_pending w) (tasks_ (loop w))));
        vm_compute; exact I).
  split; [exact Hq|]. split; [exact Hnd|]. split; [exact Hp|].
  split; [vm_compute; reflexivity|].
  exact (@process_tasks_fifo Sim (sim_externals false) w Hnd Hp).
Defined.


(** C8, as stated, fails on a loop whose reactor could not be initialized:
    the thread was never started, and the destructor closes no wakeup, does
    not run the reactor and does not close it. *)
Lemma dtor_without_reactor_does_nothing :
  let w := res_world (@EventLoop_ctor Sim (sim_externals false)
                        (world_of fresh_loop sim_no_loop)) in
  let r := @EventLoop_dtor Sim (sim_externals false) w in
  started_ (loop w) = false ∧
  res_value r = Some tt ∧
  trace w = [EvUvLoopInit] ∧
  trace (res_world r) = trace w ∧
  (EvUvClose TaskSem ∉ trace (res_world r)) ∧
  (EvUvClose StopSem ∉ trace (res_world r)) ∧
  (EvUvRun ∉ trace (res_world r)) ∧
  (EvUvLoopClose ∉ trace (res_world r)).
Proof.
  intros w r.
  split; [vm_compute; reflexivity|]. split; [vm_compute; reflexivity|].
  split; [vm_compute; reflexivity|]. split; [vm_compute; reflexivity|].
  repeat split; intros Hin; revert Hin;
    apply (bool_decide_unpack (_ ∉ _)); vm_compute; exact I.
Qed.

Lemma dtor_never_started_witness :
  let w := res_world (@EventLoop_ctor Sim (sim_externals false)
                        (world_of fresh_loop sim_no_thread)) in
  started_ (loop w) = false ∧
  trace w = [EvUvLoopInit; EvUvAsyncInit StopSem; EvUvAsyncInit TaskSem;
             EvThreadStart] ∧
  res_value (@EventLoop_dtor Sim (sim_externals false) w) = Some tt ∧
  trace (res_world (@EventLoop_dtor Sim (sim_externals false) w)) =
    trace w ++
    (if task_sem_initialized_ (loop w) then [EvUvClose TaskSem] else []) ++
    (if stop_sem_initialized_ (loop w) then [EvUvClose StopSem] else []) ++
    (if loop_initialized_ (loop w) then [EvUvRun; EvUvLoopClose] else []).
Proof.
  intros w.
  assert (Hs : started_ (loop w) = false) by (vm_compute; reflexivity).
  split; [exact Hs|]. split; [vm_compute; reflexivity|].
  split; [vm_compute; reflexivity|].
  exact (@dtor_never_started Sim (sim_externals false) w Hs).
Defined.

Lemma remove_open_port_witness :
  let w := @world_of Sim (running_loop [3; 4] []) sim_ok in
  started_ (loop w) = true ∧
  fst (@uv_async_send Sim (sim_externals false) TaskSem (env w)) = 0 ∧
  tasks_ (loop w) = [] ∧
  NoDup (open_ports_ (loop w)) ∧
  3 ∈ open_ports_ (loop w) ∧
  open_ports_ (loop (res_world
    (@call_alone Sim (sim_externals false) 0 (RemovePort (Some 3)) w))) = [4] ∧
  ∃ th w' async,
    @call_alone Sim (sim_externals false) 0 (RemovePort (Some 3)) w
      = Ok th w' ∧
    state (stack w' 0) = TaskSucceeded ∧
    open_ports_ (loop w') = list_erase (open_ports_ (loop w)) 3 ∧
    (3 ∉ open_ports_ (loop w')) ∧
    S (num_ports (loop w')) = num_ports (loop w) ∧
    EvPortAsyncClose 3 async ∈ trace w' ∧
    closing_ports_ (loop w') =
      (if async then closing_ports_ (loop w) ++ [3]
       else closing_ports_ (loop w)) ∧
    pc th = (if list_contains (closing_ports_ (loop w')) 3
             then InWaitClosed 3 RetVoid else Returned RetVoid).
Proof.
  intros w.
  assert (Hnd : NoDup (open_ports_ (loop w)))
    by (apply (bool_decide_unpack (NoDup (open_ports_ (loop w))));
        vm_compute; exact I).
  assert (Hin : 3 ∈ open_ports_ (loop w))
    by (apply (bool_decide_unpack (3 ∈ open_ports_ (loop w)));
        vm_compute; exact I).
  split; [reflexivity|]. split; [reflexivity|]. split; [reflexivity|].
  split; [exact Hnd|]. split; [exact Hin|].
  split; [vm_compute; reflexivity|].
  exact (@remove_open_port Sim (sim_externals false) 0 3 w
           eq_refl eq_refl eq_refl Hnd Hin).
Defined.

Lemma add_then_remove_restores_witness :
  let c := AddUdpReceiver {| rc_bind_address := 9 |} (ClientWriter 1) in
  let w := @world_of Sim (running_loop [7] []) sim_ok in
  let r1 := @call_alone Sim (sim_externals false) 0 c w in
  let th1 := {| call := c; pc := Returned (RetHandle (Some 1));
                writer_out := None |} in
  let r2 := @call_alone Sim (sim_externals false) 1 (RemovePort (Some 1))
              (res_world r1) in
  let th2 := {| call := RemovePort (Some 1); pc := InWaitClosed 1 RetVoid;
                writer_out := None |} in
  is_add c ∧ tasks_ (loop w) = [] ∧ (1 ∉ open_ports_ (loop w)) ∧
  r1 = Ok th1 (res_world r1) ∧
  pc th1 = Returned (RetHandle (Some 1)) ∧
  r2 = Ok th2 (res_world r2) ∧
  num_ports (loop (res_world r1)) = S (num_ports (loop w)) ∧
  open_ports_ (loop (res_world r2)) = open_ports_ (loop w) ∧
  num_ports (loop (res_world r2)) = num_ports (loop w).
Proof.
  intros c w r1 th1 r2 th2.
  assert (H1 : res_value r1 = Some th1) by (vm_compute; reflexivity).
  assert (H2 : res_value r2 = Some th2) by (vm_compute; reflexivity).
  assert (Hf : 1 ∉ open_ports_ (loop w))
    by (apply (bool_decide_unpack (1 ∉ open_ports_ (loop w)));
        vm_compute; exact I).
  split; [exact I|]. split; [reflexivity|]. split; [exact Hf|].
  split; [exact (res_value_Some _ _ H1)|]. split; [reflexivity|].
  split; [exact (res_value_Some _ _ H2)|].
  exact (@add_then_remove_restores Sim (sim_externals false) 0 1 c 1 w
           th1 (res_world r1) th2 (res_world r2) I eq_refl Hf
           (res_value_Some _ _ H1) eq_refl (res_value_Some _ _ H2)).
Defined.

Lemma resolve_answered_at_once_witness :
  let w := @world_of Sim (running_loop [] []) sim_ok in
  let r := {| endpoint_uri := 3; resolved_address := 127; success := true |} in
  started_ (loop w) = true ∧
  fst (@uv_async_send Sim (sim_externals false) TaskSem (env w)) = 0 ∧
  tasks_ (loop w) = [] ∧
  @async_resolve Sim (sim_externals false)
    {| endpoint_uri := 3; resolved_address := 0; success := false |}
    (snd (@uv_async_send Sim (sim_externals false) TaskSem (env w)))
    = ((false, r), sim_ok) ∧
  ∃ th w',
    @call_alone Sim (sim_externals false) 0 (ResolveEndpointAddress 3 0) w
      = Ok th w' ∧
    pc th = Returned (RetBool (success r)) ∧
    resolve_req (stack w' 0) = r ∧
    state (stack w' 0) = (if success r then TaskSucceeded else TaskFailed) ∧
    loop w' = loop w ∧ resolving w' = resolving w ∧ env w' = sim_ok.
Proof.
  intros w r.
  split; [reflexivity|]. split; [reflexivity|]. split; [reflexivity|].
  split; [reflexivity|].
  exact (@resolve_answered_at_once Sim (sim_externals false) 0 3 0 w r sim_ok
           eq_refl eq_refl eq_refl eq_refl).
Defined.

Lemma resolve_answered_later_witness :
  let w := @world_of Sim (running_loop [] []) sim_resolve_later in
  let c := ResolveEndpointAddress 3 0 in
  let r := {| endpoint_uri := 3; resolved_address := 0; success := false |} in
  started_ (loop w) = true ∧
  fst (@uv_async_send Sim (sim_externals false) TaskSem (env w)) = 0 ∧
  tasks_ (loop w) = [] ∧
  @async_resolve Sim (sim_externals false) r
    (snd (@uv_async_send Sim (sim_externals false) TaskSem (env w)))
    = ((true, r), sim_resolve_later) ∧
  ∃ w',
    @call_alone Sim (sim_externals false) 0 c w = Ok (parked c) w' ∧
    state (stack w' 0) = TaskPending ∧
    resolving w' = resolving w ++ [0] ∧
    loop w' = loop w ∧
    trace w' = trace w ++
      [EvUvAsyncSend TaskSem; EvHandler 0 F_resolve_endpoint_address;
       EvAsyncResolve 0 true; EvTaskState 0 TaskPending TaskPending] ∧
    ∀ ok b, ∃ w'',
      @resolver_completes Sim 0 ok b w' = Ok tt w'' ∧
      (0 ∉ resolving w'') ∧
      resolved_address (resolve_req (stack w'' 0)) = b ∧
      trace w'' = trace w' ++
        [EvTaskState 0 TaskPending
           (if ok then TaskSucceeded else TaskFailed);
         EvTaskCondBroadcast] ∧
      ∃ th, @resume Sim 0 (parked c) w'' = Ok th w'' ∧
            pc th = Returned (RetBool ok).
Proof.
  intros w c r.
  split; [reflexivity|]. split; [reflexivity|]. split; [reflexivity|].
  split; [reflexivity|].
  exact (@resolve_answered_later Sim (sim_externals false) 0 3 0 w r
           sim_resolve_later eq_refl eq_refl eq_refl eq_refl).
Defined.

Lemma sender_writer_published_witness :
  let config := {| sc_bind_address := 9 |} in
  let w := @world_of Sim (running_loop [] []) sim_ok in
  let r := @call_alone Sim (sim_externals false) 0
             (AddUdpSender config (Some None)) w in
  let th := {| call := AddUdpSender config (Some None);
               pc := Returned (RetHandle (Some 1));
               writer_out := Some (Some (SenderPortWriter 1)) |} in
  tasks_ (loop w) = [] ∧
  r = Ok th (res_world r) ∧
  state (stack (res_world r) 0) = TaskSucceeded ∧
  ∃ p,
    pc th = Returned (RetHandle (Some p)) ∧
    port_writer (stack (res_world r) 0) = Some (SenderPortWriter p) ∧
    writer_out th = Some (Some (SenderPortWriter p)).
Proof.
  intros config w r th.
  assert (Hv : res_value r = Some th) by (vm_compute; reflexivity).
  assert (Hs : state (stack (res_world r) 0) = TaskSucceeded)
    by (vm_compute; reflexivity).
  split; [reflexivity|]. split; [exact (res_value_Some _ _ Hv)|].
  split; [exact Hs|].
  exact (@sender_writer_published Sim (sim_externals false) 0 config
           (Some None) w th (res_world r) eq_refl
           (res_value_Some _ _ Hv) Hs).
Defined.

Lemma queued_task_is_live_witness :
  let c := AddUdpReceiver {| rc_bind_address := 9 |} (ClientWriter 1) in
  let s0 := {| world := @world_of Sim (running_loop [] []) sim_ok;
               threads := λ _, None |} in
  let s1 := set_thread 0 (parked c) s0
              (res_world (@enter Sim (sim_externals false) 0 c (world s0))) in
  quiet s0 ∧ @steps Sim (sim_externals false) s0 s1 ∧
  (0 ∈ tasks_ (loop (world s1)) ∨ 0 ∈ resolving (world s1)) ∧
  NoDup (tasks_ (loop (world s1))) ∧
  state (stack (world s1) 0) = TaskPending ∧
  ∃ th, threads s1 0 = Some th ∧ pc th = InRunTask.
Proof.
  intros c s0 s1.
  assert (Hq : quiet s0) by (repeat split).
  assert (H1 : res_value (@enter Sim (sim_externals false) 0 c (world s0))
               = Some (parked c)) by (vm_compute; reflexivity).
  assert (Hsteps : @steps Sim (sim_externals false) s0 s1).
  { eapply steps_step; [apply steps_refl|].
    exact (step_enter s0 0 c _ _ eq_refl (res_value_Some _ _ H1)). }
  assert (Hin : 0 ∈ tasks_ (loop (world s1)) ∨ 0 ∈ resolving (world s1)).
  { left. apply (bool_decide_unpack (0 ∈ tasks_ (loop (world s1)))).
    vm_compute. exact I. }
  split; [exact Hq|]. split; [exact Hsteps|]. split; [exact Hin|].
  exact (@queued_task_is_live Sim (sim_externals false) s0 s1 0
           Hq Hsteps Hin).
Defined.

Lemma second_wakeup_is_idle_witness :
  let c0 := AddUdpReceiver {| rc_bind_address := 9 |} (ClientWriter 1) in
  let c1 := ResolveEndpointAddress 3 0 in
  let w := res_world
             (bind (@enter Sim (sim_externals false) 0 c0)
                   (λ _, @enter Sim (sim_externals false) 1 c1)
                   (world_of (running_loop [] []) sim_resolve_later)) in
  let r := @task_sem_cb_ Sim (sim_externals false) w in
  NoDup (tasks_ (loop w)) ∧
  r = Ok tt (res_world r) ∧
  tasks_ (loop (res_world r)) = [] ∧
  @task_sem_cb_ Sim (sim_externals false) (res_world r)
    = Ok tt (res_world r).
Proof.
  intros c0 c1 w r.
  assert (Hnd : NoDup (tasks_ (loop w)))
    by (apply (bool_decide_unpack (NoDup (tasks_ (loop w))));
        vm_compute; exact I).
  assert (Hv : res_value r = Some tt) by (vm_compute; reflexivity).
  split; [exact Hnd|]. split; [exact (res_value_Some _ _ Hv)|].
  exact (@second_wakeup_is_idle Sim (sim_externals false) w (res_world r)
           Hnd (res_value_Some _ _ Hv)).
Defined.

Lemma dtor_returns_clean_witness :
  let w := res_world (@EventLoop_ctor Sim (sim_externals false)
                        (world_of fresh_loop sim_no_thread)) in
  let r := @EventLoop_dtor Sim (sim_externals false) w in
  task_sem_initialized_ (loop w) = true ∧
  r = Ok tt (res_world r) ∧
  open_ports_ (loop (res_world r)) = [] ∧
  closing_ports_ (loop (res_world r)) = [] ∧
  task_sem_initialized_ (loop (res_world r)) = false ∧
  stop_sem_initialized_ (loop (res_world r)) = false ∧
  @thread_joinable Sim (sim_externals false) (env (res_world r)) = false.
Proof.
  intros w r.
  assert (Hv : res_value r = Some tt) by (vm_compute; reflexivity).
  split; [vm_compute; reflexivity|].
  split; [exact (res_value_Some _ _ Hv)|].
  exact (@dtor_returns_clean Sim (sim_externals false) w (res_world r)
           (res_value_Some _ _ Hv)).
Defined.

Lemma failed_ctor_teardown_witness :
  let w := @world_of Sim fresh_loop sim_no_thread in
  let r := @EventLoop_ctor Sim (sim_externals false) w in
  r = Ok tt (res_world r) ∧
  valid (loop (res_world r)) = false ∧
  stop_sem_initialized_ (loop (res_world r)) = true ∧
  match @EventLoop_dtor Sim (sim_externals false) (res_world r) with
  | Ok _ w2 =>
      task_sem_initialized_ (loop w2) = false ∧
      stop_sem_initialized_ (loop w2) = false
  | Aborted why _ =>
      why = RocPanic LoopCloseFailed ∨ why = RocPanic DtorJoinable
  end.
Proof.
  intros w r.
  assert (Hv : res_value r = Some tt) by (vm_compute; reflexivity).
  assert (Hi : valid (loop (res_world r)) = false)
    by (vm_compute; reflexivity).
  split; [exact (res_value_Some _ _ Hv)|]. split; [exact Hi|].
  split; [vm_compute; reflexivity|].
  exact (@failed_ctor_teardown Sim (sim_externals false) w (res_world r)
           (res_value_Some _ _ Hv) Hi).
Defined.

Lemma ports_stay_disjoint_witness :
  let w := @world_of Sim (running_loop [7] [8]) sim_ok in
  ports_disjoint (loop w) ∧
  @fresh_at Sim (sim_externals false) w ∧
  (∀ f t s w', @call_func Sim (sim_externals false) f t w = Ok s w' →
               ports_disjoint (loop w')) ∧
  (∀ p w', @handle_closed Sim (sim_externals false) p w = Ok tt w' →
           ports_disjoint (loop w')) ∧
  (∀ w', @async_close_ports_ Sim (sim_externals false) w = Ok tt w' →
         open_ports_ (loop w') = [] ∧ ports_disjoint (loop w')).
Proof.
  intros w.
  assert (Hd : ports_disjoint (loop w)).
  { intros p Hp. apply list_elem_of_singleton in Hp. subst p.
    apply (bool_decide_unpack (7 ∉ closing_ports_ (loop w))).
    vm_compute. exact I. }
  assert (Hf : @fresh_at Sim (sim_externals false) w).
  { intros p e Hnew.
    assert (p = 1) as ->.
    { destruct Hnew as [(cfg & wr & H)|(cfg & H)]; by injection H. }
    split.
    - apply (bool_decide_unpack (1 ∉ open_ports_ (loop w))).
      vm_compute. exact I.
    - apply (bool_decide_unpack (1 ∉ closing_ports_ (loop w))).
      vm_compute. exact I. }
  split; [exact Hd|]. split; [exact Hf|].
  exact (@ports_stay_disjoint Sim (sim_externals false) w Hd Hf).
Defined.

Lemma waiter_released_by_own_port_witness :
  let w := @world_of Sim (running_loop [] [5; 6]) sim_ok in
  let th := {| call := RemovePort (Some 6); pc := InWaitClosed 6 RetVoid;
               writer_out := None |} in
  pc th = InWaitClosed 6 RetVoid ∧
  6 ∈ closing_ports_ (loop w) ∧
  5 ≠ 6 ∧
  (∃ w', @handle_closed Sim (sim_externals false) 5 w = Ok tt w' ∧
     6 ∈ closing_ports_ (loop w') ∧
     @resume Sim 0 th w' = Ok th w') ∧
  (∃ w' th', @handle_closed Sim (sim_externals false) 6 w = Ok tt w' ∧
     EvCloseCondBroadcast ∈ trace w' ∧
     @resume Sim 0 th w' = Ok th' w' ∧
     pc th' = Returned RetVoid).
Proof.
  intros w th.
  assert (Hin : 6 ∈ closing_ports_ (loop w))
    by (apply (bool_decide_unpack (6 ∈ closing_ports_ (loop w)));
        vm_compute; exact I).
  assert (Hne : 5 ≠ 6) by discriminate.
  split; [reflexivity|]. split; [exact Hin|]. split; [exact Hne|].
  exact (@waiter_released_by_own_port Sim (sim_externals false) 0 5 6
           RetVoid th w eq_refl Hin Hne).
Defined.

Lemma submitted_task_runs_last_witness :
  let c0 := ResolveEndpointAddress 3 0 in
  let c1 := AddUdpReceiver {| rc_bind_address := 9 |} (ClientWriter 1) in
  let w := res_world (@enter Sim (sim_externals false) 0 c0
                        (world_of (running_loop [] []) sim_ok)) in
  let r1 := @enter Sim (sim_externals false) 1 c1 w in
  let r2 := @process_tasks_ Sim (sim_externals false) (res_world r1) in
  NoDup (tasks_ (loop w)) ∧
  (1 ∉ tasks_ (loop w)) ∧
  r1 = Ok (parked c1) (res_world r1) ∧
  r2 = Ok tt (res_world r2) ∧
  tasks_ (loop w) = [0] ∧
  tasks_ (loop (res_world r1)) = tasks_ (loop w) ++ [1] ∧
  tasks_ (loop (res_world r2)) = [] ∧
  ∃ evs, trace (res_world r2) = trace (res_world r1) ++ evs ∧
    handler_runs evs = tasks_ (loop w) ++ [1].
Proof.
  intros c0 c1 w r1 r2.
  assert (Hnd : NoDup (tasks_ (loop w)))
    by (apply (bool_decide_unpack (NoDup (tasks_ (loop w))));
        vm_compute; exact I).
  assert (Ht : 1 ∉ tasks_ (loop w))
    by (apply (bool_decide_unpack (1 ∉ tasks_ (loop w)));
        vm_compute; exact I).
  assert (H1 : res_value r1 = Some (parked c1)) by (vm_compute; reflexivity).
  assert (H2 : res_value r2 = Some tt) by (vm_compute; reflexivity).
  split; [exact Hnd|]. split; [exact Ht|].
  split; [exact (res_value_Some _ _ H1)|].
  split; [exact (res_value_Some _ _ H2)|].
  split; [vm_compute; reflexivity|].
  exact (@submitted_task_runs_last Sim (sim_externals false) 1 c1 w
           (parked c1) (res_world r1) (res_world r2) Hnd Ht
           (res_value_Some _ _ H1) (res_value_Some _ _ H2)).
Defined.

Lemma stop_leaves_no_open_port_witness :
  let w := res_world (@enter Sim (sim_externals true) 0
                        (ResolveEndpointAddress 3 0)
                        (world_of (running_loop [3; 4] [5]) sim_ok)) in
  let r := @stop_sem_cb_ Sim (sim_externals true) w in
  NoDup (open_ports_ (loop w)) ∧
  NoDup (closing_ports_ (loop w)) ∧
  ports_disjoint (loop w) ∧
  NoDup (tasks_ (loop w)) ∧
  (∀ t, t ∈ tasks_ (loop w) →
        func (stack w t) = F_resolve_endpoint_address) ∧
  tasks_ (loop w) = [0] ∧
  open_ports_ (loop w) = [3; 4] ∧
  closing_ports_ (loop (res_world r)) = [5; 3; 4] ∧
  ∃ w',
    @stop_sem_cb_ Sim (sim_externals true) w = Ok tt w' ∧
    open_ports_ (loop w') = [] ∧ num_ports (loop w') = 0 ∧
    tasks_ (loop w') = [] ∧
    NoDup (closing_ports_ (loop w')) ∧
    (∀ p, p ∈ closing_ports_ (loop w') →
          p ∈ closing_ports_ (loop w) ∨ p ∈ open_ports_ (loop w)) ∧
    (∀ p, p ∈ closing_ports_ (loop w) → p ∈ closing_ports_ (loop w')).
Proof.
  intros w r.
  assert (Hq : tasks_ (loop w) = [0]) by (vm_compute; reflexivity).
  assert (Ho : open_ports_ (loop w) = [3; 4]) by (vm_compute; reflexivity).
  assert (Hc : closing_ports_ (loop w) = [5]) by (vm_compute; reflexivity).
  assert (Hndo : NoDup (open_ports_ (loop w)))
    by (apply (bool_decide_unpack (NoDup (open_ports_ (loop w))));
        vm_compute; exact I).
  assert (Hndc : NoDup (closing_ports_ (loop w)))
    by (rewrite Hc; apply NoDup_singleton).
  assert (Hdis : ports_disjoint (loop w)).
  { intros p. rewrite Ho, Hc. intros Hp Hp'.
    apply list_elem_of_singleton in Hp'. subst p. revert Hp.
    apply (bool_decide_unpack (5 ∉ [3; 4])). vm_compute. exact I. }
  assert (Hndt : NoDup (tasks_ (loop w)))
    by (rewrite Hq; apply NoDup_singleton).
  assert (Hfun : ∀ t, t ∈ tasks_ (loop w) →
            func (stack w t) = F_resolve_endpoint_address).
  { intros t. rewrite Hq. intros Hin.
    apply list_elem_of_singleton in Hin. subst t. vm_compute. reflexivity. }
  split; [exact Hndo|]. split; [exact Hndc|]. split; [exact Hdis|].
  split; [exact Hndt|]. split; [exact Hfun|]. split; [exact Hq|].
  split; [exact Ho|]. split; [vm_compute; reflexivity|].
  exact (@stop_leaves_no_open_port Sim (sim_externals true) w
           Hndo Hndc Hdis Hndt Hfun).
Defined.
